(** * topology_1D: parsers and helix segmentation of [bin/topology_1D.py]

    A shallow embedding of the pair parsers ([read_csv], [read_bpseq],
    [read_jv], [find_parens]) and of the helix segmenter ([create_helices])
    together with the properties of them that the specification states.

    Conventions of the embedding.
    - Python [int] is [Z]; an index produced by [enumerate] or [range] is [nat].
    - Python [str] is [string]; the text is ASCII (one [ascii] per character).
    - A text file is the list of the lines that iterating over it yields
      (each with its line terminator, when it has one); the rows that
      [csv.reader] yields are lists of fields.
    - A raised exception is the left injection of [result]; the statements
      after a [raise] are not run.
    - [helix_basepairs] is a [gmap] from helix index to pair list; [toret],
      whose iteration order is returned, is an insertion-ordered association
      list. *)

From stdpp Require Import gmap strings list fin_maps sorting.
From Stdlib Require Import ZArith Ascii Lia.

Open Scope Z_scope.

(** * Part I: the program *)

(** ** Exceptions and the error monad *)

(** What an [IndexError] of the script reports: the two messages of
    [find_parens], each carrying the index that is appended to the message
    with [str], and the interpreter's own error for a subscript out of
    range. *)
Inductive index_error : Type :=
| NoMatchingClosing (i : nat)   (* "No matching closing parens at: " + str(i) *)
| NoMatchingOpening (i : nat)   (* "No matching opening parens at: " + str(i) *)
| OutOfRange.                   (* list index out of range *)

Inductive exn : Type :=
| IndexError (why : index_error)
| ValueError (literal : string)       (* int() on a string that is no integer *)
| KeyError (key : nat)                (* subscript of a dict on a missing key *)
| UnboundLocalError (var : string).   (* read of a local never assigned *)

(** [UnboundLocalError] is a subclass of [NameError]; no other exception of
    the model is. *)
Definition is_NameError (e : exn) : bool :=
  match e with
  | UnboundLocalError _ => true
  | _ => false
  end.

Definition result (A : Type) : Type := exn + A.

Definition raise {A : Type} (e : exn) : result A := inl e.

#[global] Instance result_ret : MRet (sum exn) := fun A x => inr x.
#[global] Instance result_bind : MBind (sum exn) :=
  fun A B f m => match m with inl e => inl e | inr x => f x end.

(** [l[i]] on a Python list. *)
Definition subscript {A : Type} (l : list A) (i : nat) : result A :=
  match l !! i with
  | Some x => inr x
  | None => raise (IndexError OutOfRange)
  end.

(** ** Python values and their equality *)

(** The two kinds of scalar the parsers put in tuples.  [==] between a
    [str] and an [int] is [False]. *)
Inductive pyval : Type :=
| PInt (z : Z)
| PStr (s : string).

Definition pyval_eqb (a b : pyval) : bool :=
  match a, b with
  | PInt x, PInt y => x =? y
  | PStr s, PStr t => String.eqb s t
  | _, _ => false
  end.

(** [x in l] for a 2-tuple [x] and a list [l] of 2-tuples. *)
Definition tuple_in (x : pyval * pyval) (l : list (pyval * pyval)) : bool :=
  existsb (fun t => pyval_eqb x.1 t.1 && pyval_eqb x.2 t.2) l.

Definition int_tuple (t : Z * Z) : pyval * pyval := (PInt t.1, PInt t.2).

(** ** String primitives *)

Definition tab : ascii := "009"%char.
Definition newline : ascii := "010"%char.

(** [str.isspace] on an ASCII character: tab, line feed, vertical tab, form
    feed, carriage return, the four separators 28..31, and space. *)
Definition is_space (c : ascii) : bool :=
  let n := nat_of_ascii c in
  ((9 <=? n)%nat && (n <=? 13)%nat) || ((28 <=? n)%nat && (n <=? 32)%nat).

Definition is_empty (s : string) : bool :=
  match s with
  | EmptyString => true
  | String _ _ => false
  end.

Definition snoc (s : string) (c : ascii) : string := s +:+ String c EmptyString.

(** [s.split()]: the maximal runs of non-space characters of [cur ++ s],
    where [cur] is the run being read. *)
Fixpoint split_ws_from (cur : string) (s : string) : list string :=
  match s with
  | EmptyString => if is_empty cur then [] else [cur]
  | String c s' =>
      if is_space c
      then (if is_empty cur then split_ws_from EmptyString s'
            else cur :: split_ws_from EmptyString s')
      else split_ws_from (snoc cur c) s'
  end.

Definition split_ws (s : string) : list string := split_ws_from EmptyString s.

(** [s.split(sep)] for a one-character separator: empty fields are kept and
    the result is never empty. *)
Fixpoint split_on_from (sep : ascii) (cur : string) (s : string) : list string :=
  match s with
  | EmptyString => [cur]
  | String c s' =>
      if Ascii.eqb c sep then cur :: split_on_from sep EmptyString s'
      else split_on_from sep (snoc cur c) s'
  end.

Definition split_on (sep : ascii) (s : string) : list string :=
  split_on_from sep EmptyString s.

(** [s.replace(old, '')] for a non-empty [old]: occurrences are removed left
    to right without overlap.  [skip] counts the characters of an occurrence
    still to be dropped. *)
Fixpoint remove_from (old : string) (skip : nat) (s : string) : string :=
  match s with
  | EmptyString => EmptyString
  | String c s' =>
      match skip with
      | S k => remove_from old k s'
      | O =>
          if String.prefix old s then remove_from old (String.length old - 1) s'
          else String c (remove_from old O s')
      end
  end.

Definition remove_all (old : string) (s : string) : string := remove_from old O s.

(** The white space [int] skips around a literal: tab, line feed, vertical
    tab, form feed, carriage return and space.  The separators 28..31, which
    [str.split] takes for white space, are not skipped: a literal next to one
    of them is no integer. *)
Definition is_int_space (c : ascii) : bool :=
  let n := nat_of_ascii c in
  ((9 <=? n)%nat && (n <=? 13)%nat) || (n =? 32)%nat.

(** The string without the characters at its ends that [int] skips. *)
Fixpoint lstrip (s : string) : string :=
  match s with
  | EmptyString => EmptyString
  | String c s' => if is_int_space c then lstrip s' else s
  end.

Fixpoint rstrip (s : string) : string :=
  match s with
  | EmptyString => EmptyString
  | String c s' =>
      let r := rstrip s' in
      if is_int_space c && is_empty r then EmptyString else String c r
  end.

Definition strip (s : string) : string := rstrip (lstrip s).

Definition digit_value (c : ascii) : option Z :=
  let n := nat_of_ascii c in
  if (48 <=? n)%nat && (n <=? 57)%nat then Some (Z.of_nat (n - 48)) else None.

(** The digits of a decimal literal, with single underscores allowed between
    digits; [after_us] says that the previous character was an underscore. *)
Fixpoint int_digits (acc : Z) (after_us : bool) (s : string) : option Z :=
  match s with
  | EmptyString => if after_us then None else Some acc
  | String c s' =>
      match digit_value c with
      | Some d => int_digits (10 * acc + d) false s'
      | None =>
          if Ascii.eqb c "_"%char && negb after_us then int_digits acc true s'
          else None
      end
  end.

Definition int_magnitude (s : string) : option Z :=
  match s with
  | EmptyString => None
  | String c _ =>
      match digit_value c with
      | Some _ => int_digits 0 false s
      | None => None
      end
  end.

(** [int(s)] in base ten: the white space [int] skips at both ends, an
    optional sign, then the digits. *)
Definition int_of_string (s : string) : option Z :=
  match strip s with
  | String "-"%char r => Z.opp <$> int_magnitude r
  | String "+"%char r => int_magnitude r
  | r => int_magnitude r
  end.

Definition int (s : string) : result Z :=
  match int_of_string s with
  | Some z => inr z
  | None => raise (ValueError s)
  end.

(** ** Loops *)

(** A [for] loop over [l] whose body updates the loop state [st] or raises. *)
Fixpoint for_each {A St : Type} (body : St -> A -> result St) (st : St)
    (l : list A) : result St :=
  match l with
  | [] => inr st
  | x :: l' =>
      match body st x with
      | inl e => inl e
      | inr st' => for_each body st' l'
      end
  end.

(** [enumerate(s)], counting from [i]. *)
Fixpoint enumerate_from {A : Type} (i : nat) (s : list A) : list (nat * A) :=
  match s with
  | [] => []
  | c :: s' => (i, c) :: enumerate_from (S i) s'
  end.

Definition enumerate {A : Type} (s : list A) : list (nat * A) := enumerate_from 0 s.

(** Iterating over a [str] yields its characters as one-character strings. *)
Fixpoint chars (s : string) : list string :=
  match s with
  | EmptyString => []
  | String c s' => String c EmptyString :: chars s'
  end.

(** ** [read_csv] *)

Definition base_pairs : list (string * string) :=
  [("A", "U"); ("G", "C"); ("G", "U")]%string.

(** [int(row[k].split(':')[1])] *)
Definition colon_int (row : list string) (k : nat) : result Z :=
  field ← subscript row k;
  after ← subscript (split_on ":" field) 1;
  int after.

(** [(int(row[0].split(':')[1]), int(row[2].split(':')[1]))] *)
Definition row_tuple (row : list string) : result (Z * Z) :=
  p ← colon_int row 0;
  q ← colon_int row 2;
  mret (p, q).

(** The body of [for row in csv_reader]; the state is
    [(line_count, cannonical_tuples)]. *)
Definition read_csv_row (st : nat * list (Z * Z)) (row : list string)
    : result (nat * list (Z * Z)) :=
  let '(line_count, cannonical_tuples) := st in
  if (line_count =? 0)%nat then mret ((line_count + 1)%nat, cannonical_tuples)
  else
    cannonical_tuples ←
      for_each (fun acc cannonical_bp => t ← row_tuple row; mret (acc ++ [t]))
        cannonical_tuples base_pairs;
    mret ((line_count + 1)%nat, cannonical_tuples).

(** [csv_reader] is the list of rows that [csv.reader] yields. *)
Definition read_csv (csv_reader : list (list string)) : result (list (Z * Z)) :=
  st ← for_each read_csv_row (0%nat, []) csv_reader;
  mret st.2.

(** ** [read_bpseq] *)

(** [int(row.split()[k])] *)
Definition ws_int (row : string) (k : nat) : result Z :=
  field ← subscript (split_ws row) k;
  int field.

(** [(row.split()[j], row.split()[k]) in cannonical_tuples]: a tuple of two
    [str] looked up in a list of tuples of two [int]. *)
Definition str_tuple_in (row : string) (j k : nat) (cannonical_tuples : list (Z * Z))
    : result bool :=
  a ← subscript (split_ws row) j;
  b ← subscript (split_ws row) k;
  mret (tuple_in (PStr a, PStr b) (int_tuple <$> cannonical_tuples)).

(** [cannonical_tuples.append((int(row.split()[0]),int(row.split()[2])))] *)
Definition append_row (cannonical_tuples : list (Z * Z)) (row : string)
    : result (list (Z * Z)) :=
  p ← ws_int row 0;
  q ← ws_int row 2;
  mret (cannonical_tuples ++ [(p, q)]).

(** The body of [for row in bp_file]; [or] evaluates its right operand only
    when the left one is false. *)
Definition read_bpseq_row (cannonical_tuples : list (Z * Z)) (row : string)
    : result (list (Z * Z)) :=
  p ← ws_int row 0;
  unpaired ← (if p =? 0 then mret true else q ← ws_int row 2; mret (q =? 0));
  if unpaired : bool then mret cannonical_tuples
  else if (length cannonical_tuples <? 1)%nat then append_row cannonical_tuples row
  else
    seen ← str_tuple_in row 0 2 cannonical_tuples;
    seen ← (if seen : bool then mret true else str_tuple_in row 2 0 cannonical_tuples);
    if seen : bool then mret cannonical_tuples
    else append_row cannonical_tuples row.

Definition read_bpseq (bp_file : list string) : result (list (Z * Z)) :=
  for_each read_bpseq_row [] bp_file.

(** ** [find_parens] and [read_jv] *)

(** [d[k] = v] on a dict kept in insertion order: a key already present
    keeps its place, a new key goes last. *)
Fixpoint dict_set (k v : nat) (d : list (nat * nat)) : list (nat * nat) :=
  match d with
  | [] => [(k, v)]
  | (k', v') :: d' =>
      if (k =? k')%nat then (k', v) :: d' else (k', v') :: dict_set k v d'
  end.

(** The body of [for i, c in enumerate(s)].  The state is [(toret, pstack)];
    [pstack] is kept top first, so [append] is a cons and [pop] takes the
    head. *)
Definition find_parens_step (st : list (nat * nat) * list nat) (ic : nat * string)
    : result (list (nat * nat) * list nat) :=
  let '(toret, pstack) := st in
  let '(i, c) := ic in
  if String.eqb c "(" then mret (toret, i :: pstack)
  else if String.eqb c ")" then
    match pstack with
    | [] => raise (IndexError (NoMatchingClosing i))
    | top :: pstack' => mret (dict_set top i toret, pstack')
    end
  else mret (toret, pstack).

(** [s] is the sequence iterated over: the characters of a [str], or the
    elements of a list of [str] as [read_jv] passes it. *)
Definition find_parens (s : list string) : result (list (nat * nat)) :=
  st ← for_each find_parens_step ([], []) (enumerate s);
  match st.2 with
  | top :: _ => raise (IndexError (NoMatchingOpening top))
  | [] => mret (foldl (fun tupled_toret kv => tupled_toret ++ [kv]) [] st.1)
  end.

Definition annotation_header : string :=
  "NO_GRAPH" +:+ String tab "Secondary structure".

(** [re.match('^NO_GRAPH\tSecondary structure', line)]: the pattern has no
    special character but the anchor, so it matches when the line starts
    with the header. *)
Definition re_match_header (line : string) : bool :=
  String.prefix annotation_header line.

(** [[w.replace(',[000000]', '') for w in line.split('\t')[2].split('|')]] *)
Definition annotation_payload (line : string) : result (list string) :=
  field ← subscript (split_on tab line) 2;
  mret (remove_all ",[000000]" <$> split_on "|" field).

(** The body of [for line in jv_file]; the state is [anno_resi], [None]
    while the variable is unassigned. *)
Definition read_jv_line (anno_resi : option (list string)) (line : string)
    : result (option (list string)) :=
  if re_match_header line then
    payload ← annotation_payload line;
    mret (Some payload)
  else mret anno_resi.

Definition read_jv (jv_file : list string) : result (list (nat * nat)) :=
  anno_resi ← for_each read_jv_line None jv_file;
  match anno_resi with
  | None => raise (UnboundLocalError "anno_resi")
  | Some s => find_parens s
  end.

(** ** [create_helices] *)

(** The order [sorted] puts tuples of two [int] in: by first component, ties
    broken by the second. *)
Definition tuple_le (p q : Z * Z) : Prop :=
  p.1 < q.1 ∨ (p.1 = q.1 ∧ p.2 ≤ q.2).

#[global] Instance tuple_le_dec : RelDecision tuple_le :=
  fun p q => decide (p.1 < q.1 ∨ (p.1 = q.1 ∧ p.2 ≤ q.2)).

(** [sorted(list(set(cann_tups)))]: the set drops exact repeats, its listing
    comes in no particular order, and the sort fixes the order. *)
Definition ordered_pairs (cann_tups : list (Z * Z)) : list (Z * Z) :=
  merge_sort tuple_le (elements (list_to_set cann_tups : gset (Z * Z))).

(** [d[k].append(x)] on a dict of lists. *)
Definition dict_append (d : gmap nat (list (Z * Z))) (k : nat) (x : Z * Z)
    : result (gmap nat (list (Z * Z))) :=
  match d !! k with
  | Some l => mret (<[k := l ++ [x]]> d)
  | None => raise (KeyError k)
  end.

(** The body of [for bp_num in range(0,len(ordered_basepairs))]; the state
    is [(helix_basepairs, helix_num)]. *)
Definition create_helices_step (ordered_basepairs : list (Z * Z))
    (st : gmap nat (list (Z * Z)) * nat) (bp_num : nat)
    : result (gmap nat (list (Z * Z)) * nat) :=
  let '(helix_basepairs, helix_num) := st in
  if (0 <? bp_num)%nat then
    cur ← subscript ordered_basepairs bp_num;
    prev ← subscript ordered_basepairs (bp_num - 1);
    if (cur.1 - 1 =? prev.1) || (cur.2 - 1 =? prev.2) then
      helix_basepairs ← dict_append helix_basepairs helix_num cur;
      mret (helix_basepairs, helix_num)
    else
      let helix_num := (helix_num + 1)%nat in
      mret (<[helix_num := []]> helix_basepairs, helix_num)
  else
    let helix_basepairs := <[helix_num := []]> helix_basepairs in
    cur ← subscript ordered_basepairs bp_num;
    helix_basepairs ← dict_append helix_basepairs helix_num cur;
    mret (helix_basepairs, helix_num).

Definition create_helices (cann_tups : list (Z * Z))
    : result (gmap nat (list (Z * Z)) * nat) :=
  let ordered_basepairs := ordered_pairs cann_tups in
  for_each (create_helices_step ordered_basepairs) (∅, 0%nat)
    (seq 0 (List.length ordered_basepairs)).

(** The pairs of the helices [0 .. helix_num], helix after helix, as [main]
    walks them ([for helices in sorted(helix_basepairs.keys())]). *)
Definition helix_pairs (helix_basepairs : gmap nat (list (Z * Z))) (helix_num : nat)
    : list (Z * Z) :=
  flat_map (fun k => default [] (helix_basepairs !! k)) (seq 0 (S helix_num)).

(** ** [main]: the helices and the residue range *)

(** What the part of [main] before the plotting can raise: an exception of
    the functions above, or the [ValueError] of [max] or [min] on an empty
    sequence. *)
Inductive main_exn : Type :=
| Raised (e : exn)
| EmptySequence (fn : string).   (* fn + "() arg is an empty sequence" *)

#[global] Instance main_ret : MRet (sum main_exn) := fun A x => inr x.
#[global] Instance main_bind : MBind (sum main_exn) :=
  fun A B f m => match m with inl e => inl e | inr x => f x end.

(** [max(l, key=key)] once a first element is read: [best] gives way only to
    an element with a greater key, so the first of several maximal elements
    is returned. *)
Fixpoint max_from (key : Z * Z -> Z) (best : Z * Z) (l : list (Z * Z)) : Z * Z :=
  match l with
  | [] => best
  | x :: l' => max_from key (if key best <? key x then x else best) l'
  end.

Definition max_key (key : Z * Z -> Z) (l : list (Z * Z)) : main_exn + Z * Z :=
  match l with
  | [] => inl (EmptySequence "max")
  | x :: l' => inr (max_from key x l')
  end.

(** [min(l, key=key)], likewise. *)
Fixpoint min_from (key : Z * Z -> Z) (best : Z * Z) (l : list (Z * Z)) : Z * Z :=
  match l with
  | [] => best
  | x :: l' => min_from key (if key x <? key best then x else best) l'
  end.

Definition min_key (key : Z * Z -> Z) (l : list (Z * Z)) : main_exn + Z * Z :=
  match l with
  | [] => inl (EmptySequence "min")
  | x :: l' => inr (min_from key x l')
  end.

(** [max([max(max(cann_tups,key=lambda item:item[0])),
          max(max(cann_tups,key=lambda item:item[1]))])] *)
Definition maxresi (cann_tups : list (Z * Z)) : main_exn + Z :=
  a ← max_key fst cann_tups;
  b ← max_key snd cann_tups;
  mret (Z.max (Z.max a.1 a.2) (Z.max b.1 b.2)).

(** [min([min(min(cann_tups,key=lambda item:item[0])),
          min(min(cann_tups,key=lambda item:item[1]))])] *)
Definition minresi (cann_tups : list (Z * Z)) : main_exn + Z :=
  a ← min_key fst cann_tups;
  b ← min_key snd cann_tups;
  mret (Z.min (Z.min a.1 a.2) (Z.min b.1 b.2)).

(** [main] from the call of [create_helices] to the residue range, on the
    pair list [cann_tups] a parser returned: the values the plotting then
    reads. *)
Definition main_data (cann_tups : list (Z * Z))
    : main_exn + (gmap nat (list (Z * Z)) * nat * Z * Z) :=
  match create_helices cann_tups with
  | inl e => inl (Raised e)
  | inr (helix_basepairs, helix_num) =>
      maxresi ← maxresi cann_tups;
      minresi ← minresi cann_tups;
      mret (helix_basepairs, helix_num, maxresi, minresi)
  end.

(** * Part II: notions used in the statements *)

(** ** Bracket structure, stated without the scan *)

Fixpoint count (x : string) (l : list string) : nat :=
  match l with
  | [] => 0%nat
  | c :: l' => ((if String.eqb c x then 1 else 0) + count x l')%nat
  end.

Definition opens (l : list string) : nat := count "(" l.
Definition closes (l : list string) : nat := count ")" l.

(** Reading [l] from the left, the closing brackets never outnumber the
    opening ones by more than [m]: with [m] brackets open before [l], every
    closing bracket of [l] finds a partner. *)
Definition covered (m : nat) (l : list string) : Prop :=
  ∀ k, (closes (take k l) ≤ opens (take k l) + m)%nat.

(** [l] is covered by [m] open brackets and closes all [m] of them. *)
Definition dips (m : nat) (l : list string) : Prop :=
  covered m l ∧ closes l = (opens l + m)%nat.

(** Every closing bracket has a partner, and every opening one too. *)
Definition balanced (l : list string) : Prop := dips 0 l.

(** The closing bracket at [i] has no partner: no stretch ending just before
    it holds more opening than closing brackets. *)
Definition unmatched_closing (s : list string) (i : nat) : Prop :=
  s !! i = Some ")"%string
  ∧ ∀ k, (opens (drop k (take i s)) ≤ closes (drop k (take i s)))%nat.

(** The opening bracket at [j] has no partner: no stretch starting just after
    it holds more closing than opening brackets. *)
Definition unmatched_opening (s : list string) (j : nat) : Prop :=
  s !! j = Some "("%string
  ∧ ∀ k, (closes (take k (drop (S j) s)) ≤ opens (take k (drop (S j) s)))%nat.

(** ** Sample lines, fields and keys *)

(** An annotation line of a Jalview file with the given third field. *)
Definition annotation_line (payload : string) : string :=
  annotation_header +:+ String tab (payload +:+ String newline EmptyString).

(** The integer after the colon in field [k] of [row]: what
    [int(row[k].split(':')[1])] evaluates to when it raises nothing. *)
Definition after_colon (row : list string) (k : nat) (z : Z) : Prop :=
  ∃ field text, row !! k = Some field ∧ split_on ":" field !! 1%nat = Some text
                ∧ int_of_string text = Some z.

(** The keys of [helix_basepairs] are the indices [0 .. helix_num]. *)
Definition helix_keys (helix_basepairs : gmap nat (list (Z * Z))) (helix_num : nat)
    : Prop :=
  size helix_basepairs = S helix_num
  ∧ ∀ k, is_Some (helix_basepairs !! k) ↔ (k ≤ helix_num)%nat.

(** The adjacency rule of the segmenter, on a pair and the one before it
    in the ordered sequence. *)
Definition strand_adjacent (prev cur : Z * Z) : bool :=
  (cur.1 - 1 =? prev.1) || (cur.2 - 1 =? prev.2).

(** The pairs of an ordered sequence that follow [prev] and are adjacent to
    their predecessor. *)
Fixpoint adjacent_after (prev : Z * Z) (l : list (Z * Z)) : list (Z * Z) :=
  match l with
  | [] => []
  | cur :: l' =>
      (if strand_adjacent prev cur then [cur] else []) ++ adjacent_after cur l'
  end.

(** The first pair of an ordered sequence and the later pairs adjacent to
    their predecessor. *)
Definition first_and_adjacent (ordered_basepairs : list (Z * Z)) : list (Z * Z) :=
  match ordered_basepairs with
  | [] => []
  | first :: l => first :: adjacent_after first l
  end.

(** [s[a:b]] *)
Definition segment (s : list string) (a b : nat) : list string :=
  take (b - a) (drop a s).

(** [(k, v)] is an opening bracket and the closing bracket that ends the
    balanced stretch after it. *)
Definition matched_pair (s : list string) (kv : nat * nat) : Prop :=
  s !! kv.1 = Some "("%string ∧ s !! kv.2 = Some ")"%string
  ∧ (kv.1 < kv.2)%nat ∧ balanced (segment s (S kv.1) kv.2).

(** The stack before index [i]: each entry is an opening bracket, the
    entries go down from the top, and what lies between an entry and the one
    above it (or [i], for the top) is balanced. *)
Fixpoint stack_nested (s : list string) (i : nat) (pstack : list nat) : Prop :=
  match pstack with
  | [] => True
  | j :: rest =>
      s !! j = Some "("%string ∧ (j < i)%nat ∧ balanced (segment s (S j) i)
      ∧ stack_nested s j rest
  end.

(** What holds of [(toret, pstack)] before index [i] of the scan of [s]. *)
Definition scan_state (s : list string) (i : nat)
    (st : list (nat * nat) * list nat) : Prop :=
  Forall (matched_pair s) st.1
  ∧ Forall (fun kv => kv.2 < i)%nat st.1
  ∧ StronglySorted lt (st.1.*2)
  ∧ Forall (fun kv => kv.1 ∉ st.2) st.1
  ∧ NoDup (st.1.*1)
  ∧ stack_nested s i st.2
  ∧ List.length st.1 = closes (take i s).

(** ** Helices as runs of the ordered sequence *)

(** The number of pairs after [prev] that are not adjacent to their
    predecessor. *)
Fixpoint breaks_after (prev : Z * Z) (l : list (Z * Z)) : nat :=
  match l with
  | [] => 0%nat
  | cur :: l' =>
      ((if strand_adjacent prev cur then 0 else 1) + breaks_after cur l')%nat
  end.

Definition breaks (ordered_basepairs : list (Z * Z)) : nat :=
  match ordered_basepairs with
  | [] => 0%nat
  | first :: l => breaks_after first l
  end.

(** Each pair of [l] but the first is adjacent to the one listed before it. *)
Definition chained (l : list (Z * Z)) : Prop :=
  ∀ i a b, l !! i = Some a -> l !! S i = Some b -> strand_adjacent a b = true.

(** What holds of [(helix_basepairs, helix_num)] before index [i] of the
    walk over [ob], whose pair before [i] is [prev]. *)
Definition helix_lists (ob : list (Z * Z)) (i : nat) (prev : Z * Z)
    (st : gmap nat (list (Z * Z)) * nat) : Prop :=
  (∀ k h, st.1 !! k = Some h -> chained h ∧ h `sublist_of` take i ob)
  ∧ (∀ h p, st.1 !! st.2 = Some h -> last h = Some p -> p = prev).

(** The pairs at the head of [l] that continue the run ending in [prev]:
    each is adjacent to the pair before it. *)
Fixpoint run_after (prev : Z * Z) (l : list (Z * Z)) : list (Z * Z) :=
  match l with
  | [] => []
  | cur :: l' => if strand_adjacent prev cur then cur :: run_after cur l' else []
  end.

(** The first pair of an ordered sequence and the run that follows it. *)
Definition first_run (ordered_basepairs : list (Z * Z)) : list (Z * Z) :=
  match ordered_basepairs with
  | [] => []
  | first :: l => first :: run_after first l
  end.

(** * Part III: properties *)

(** ** The string primitives on sample inputs *)

Example int_plain : int "42" = inr 42.
Proof. reflexivity. Qed.

Example int_signed_padded : int " -1_000 " = inr (-1000).
Proof. reflexivity. Qed.

Example int_letter : int "A" = raise (ValueError "A").
Proof. reflexivity. Qed.

Example int_tab_newline :
  int (String tab ("7" +:+ String newline EmptyString)) = inr 7.
Proof. reflexivity. Qed.

Example int_unit_separator :
  int ("5" +:+ String "031"%char EmptyString)
  = raise (ValueError ("5" +:+ String "031"%char EmptyString)).
Proof. reflexivity. Qed.

Example int_file_separator :
  int (String "028"%char "5") = raise (ValueError (String "028"%char "5")).
Proof. reflexivity. Qed.

Example split_ws_unit_separator :
  split_ws ("1" +:+ String "031"%char "G 5") = ["1"; "G"; "5"]%string.
Proof. reflexivity. Qed.

(** A separator 28..31 after the integer of a field is not skipped by [int]:
    the row raises [ValueError]. *)
Example read_csv_unit_separator :
  read_csv [["res1"; "type"; "res2"];
            ["A:5" +:+ String "031"%char EmptyString; "cWW"; "B:8"]]%string
  = raise (ValueError ("5" +:+ String "031"%char EmptyString)).
Proof. reflexivity. Qed.

Example split_ws_row : split_ws " 12  G 40 " = ["12"; "G"; "40"]%string.
Proof. reflexivity. Qed.

Example split_on_colon : split_on ":" "A:12:x" = ["A"; "12"; "x"]%string.
Proof. reflexivity. Qed.

Example remove_all_marker :
  remove_all ",[000000]" "(,[000000]" = "("%string.
Proof. reflexivity. Qed.

(** ** Generic facts about the loops *)

Lemma for_each_app {A St : Type} (body : St -> A -> result St) st l1 l2 :
  for_each body st (l1 ++ l2) =
  match for_each body st l1 with
  | inl e => inl e
  | inr st' => for_each body st' l2
  end.
Proof.
  revert st. induction l1 as [|x l1 IH]; intros st; simpl; [done|].
  destruct (body st x); [done|]. apply IH.
Qed.

Lemma for_each_unchanged {A St : Type} (body : St -> A -> result St) st l :
  Forall (fun x => body st x = inr st) l -> for_each body st l = inr st.
Proof.
  induction 1 as [|x l Hx _ IH]; simpl; [done|]. by rewrite Hx.
Qed.

Lemma count_app x l1 l2 : count x (l1 ++ l2) = (count x l1 + count x l2)%nat.
Proof. induction l1 as [|c l1 IH]; simpl; [done|]. rewrite IH. lia. Qed.

Lemma count_take_drop x k l : (count x (take k l) + count x (drop k l))%nat = count x l.
Proof. by rewrite <- count_app, take_drop. Qed.

Lemma find_parens_step_cases st i c :
  (c = "("%string ∧ find_parens_step st (i, c) = inr (st.1, i :: st.2))
  ∨ (c = ")"%string ∧ st.2 = [] ∧ find_parens_step st (i, c) = inl (IndexError (NoMatchingClosing i)))
  ∨ (c = ")"%string ∧ ∃ top rest, st.2 = top :: rest ∧ find_parens_step st (i, c) = inr (dict_set top i st.1, rest))
  ∨ (String.eqb c "(" = false ∧ String.eqb c ")" = false ∧ find_parens_step st (i, c) = inr st).
Proof.
  destruct st as [toret pstack]. unfold find_parens_step. simpl.
  destruct (String.eqb c "(") eqn:Ho.
  - apply String.eqb_eq in Ho. left. done.
  - destruct (String.eqb c ")") eqn:Hc.
    + apply String.eqb_eq in Hc. destruct pstack as [|top rest].
      * right; left. done.
      * right; right; left. split; [done|]. by exists top, rest.
    + right; right; right. done.
Qed.

Lemma covered_nil m : covered m [].
Proof. intros k. rewrite take_nil. unfold closes, opens. simpl. lia. Qed.

Lemma covered_open m l : covered (S m) l -> covered m ("("%string :: l).
Proof.
  intros Hk k. specialize (Hk (pred k)).
  destruct k; unfold closes, opens in *; simpl in *; lia.
Qed.

Lemma covered_close m l : covered m l -> covered (S m) (")"%string :: l).
Proof.
  intros Hk k. specialize (Hk (pred k)).
  destruct k; unfold closes, opens in *; simpl in *; lia.
Qed.

Lemma covered_other m c l :
  String.eqb c "(" = false -> String.eqb c ")" = false ->
  covered m l -> covered m (c :: l).
Proof.
  intros Ho Hc Hk k. specialize (Hk (pred k)).
  destruct k; unfold closes, opens in *; simpl in *; [lia|].
  rewrite Ho, Hc. lia.
Qed.

Lemma balanced_nil : balanced [].
Proof. split; [apply covered_nil|done]. Qed.

Lemma dips_open m l : dips (S m) l -> dips m ("("%string :: l).
Proof.
  intros [Hk He]. split; [by apply covered_open|].
  unfold closes, opens in *; simpl. lia.
Qed.

Lemma dips_close m l : dips m l -> dips (S m) (")"%string :: l).
Proof.
  intros [Hk He]. split; [by apply covered_close|].
  unfold closes, opens in *; simpl. lia.
Qed.

Lemma dips_other m c l :
  String.eqb c "(" = false -> String.eqb c ")" = false -> dips m l -> dips m (c :: l).
Proof.
  intros Ho Hc [Hk He]. split; [by apply covered_other|].
  unfold closes, opens in *; simpl. rewrite Ho, Hc. lia.
Qed.

Lemma scan_closing_error s : ∀ i st e,
  for_each find_parens_step st (enumerate_from i s) = inl e →
  ∃ n, e = IndexError (NoMatchingClosing (i + n)) ∧ s !! n = Some ")"%string
       ∧ dips (List.length st.2) (take n s).
Proof.
  induction s as [|c s IH]; intros i st e; simpl; [done|].
  destruct (find_parens_step_cases st i c)
    as [[-> Hs]|[(-> & Hst & Hs)|[(-> & top & rest & Hst & Hs)|(Ho & Hc & Hs)]]];
    rewrite Hs; intros H.
  - apply IH in H as (n & -> & Hn & Hd). exists (S n).
    split; [f_equal; f_equal; lia|]. split; [done|]. simpl. by apply dips_open.
  - injection H as <-. exists 0%nat. rewrite Nat.add_0_r, Hst. simpl.
    split; [done|]. split; [done|]. apply balanced_nil.
  - apply IH in H as (n & -> & Hn & Hd). exists (S n).
    split; [f_equal; f_equal; lia|]. split; [done|]. rewrite Hst. simpl in *.
    by apply dips_close.
  - apply IH in H as (n & -> & Hn & Hd). exists (S n).
    split; [f_equal; f_equal; lia|]. split; [done|]. simpl. by apply dips_other.
Qed.

Lemma scan_final_stack s : ∀ i st st',
  for_each find_parens_step st (enumerate_from i s) = inr st' →
  covered (List.length st.2) s
  ∧ ((∃ m, (m ≤ List.length st.2)%nat ∧ st'.2 = drop m st.2 ∧ dips m s)
     ∨ (∃ n rest, st'.2 = (i + n)%nat :: rest ∧ s !! n = Some "("%string
                  ∧ balanced (drop (S n) s))).
Proof.
  induction s as [|c s IH]; intros i st st'; simpl.
  { intros [= <-]. split; [apply covered_nil|]. left. exists 0%nat.
    split; [lia|]. split; [done|]. apply balanced_nil. }
  destruct (find_parens_step_cases st i c)
    as [[-> Hs]|[(-> & Hst & Hs)|[(-> & top & rest & Hst & Hs)|(Ho & Hc & Hs)]]];
    rewrite Hs; intros H; [ | done | | ].
  - apply IH in H as [Hcov Hfin]. simpl in *. split; [by apply covered_open|].
    destruct Hfin as [(m & Hm & Hdrop & Hd)|(n & rest & Hst' & Hn & Hb)].
    + destruct m as [|m].
      * right. exists 0%nat, st.2. rewrite Nat.add_0_r. done.
      * left. exists m. split; [lia|]. split; [done|]. by apply dips_open.
    + right. exists (S n), rest. rewrite Hst'. split; [f_equal; lia|]. done.
  - apply IH in H as [Hcov Hfin]. rewrite Hst. simpl in *.
    split; [by apply covered_close|].
    destruct Hfin as [(m & Hm & Hdrop & Hd)|(n & rest' & Hst' & Hn & Hb)].
    + left. exists (S m). split; [lia|]. split; [done|]. by apply dips_close.
    + right. exists (S n), rest'. rewrite Hst'. split; [f_equal; lia|]. done.
  - apply IH in H as [Hcov Hfin]. split; [by apply covered_other|].
    destruct Hfin as [(m & Hm & Hdrop & Hd)|(n & rest & Hst' & Hn & Hb)].
    + left. exists m. split; [done|]. split; [done|]. by apply dips_other.
    + right. exists (S n), rest. rewrite Hst'. split; [f_equal; lia|]. done.
Qed.

(** ** From the stack to the brackets without partner *)

Lemma closes_snoc_close l : closes (l ++ [")"%string]) = S (closes l).
Proof. unfold closes. rewrite count_app. simpl. lia. Qed.

Lemma opens_snoc_close l : opens (l ++ [")"%string]) = opens l.
Proof. unfold opens. rewrite count_app. simpl. lia. Qed.

Lemma covered_whole m l : covered m l -> (closes l ≤ opens l + m)%nat.
Proof. intros H. specialize (H (List.length l)). by rewrite firstn_all in H. Qed.

Lemma covered_no_unmatched_closing s k :
  covered 0 (take (S k) s) -> ¬ unmatched_closing s k.
Proof.
  intros Hcov [Hk Hun]. apply covered_whole in Hcov.
  rewrite (take_S_r _ _ _ Hk), closes_snoc_close, opens_snoc_close in Hcov.
  specialize (Hun 0%nat). rewrite drop_0 in Hun. lia.
Qed.

Lemma covered_take m k l : covered m l -> covered m (take k l).
Proof.
  intros H k'. rewrite take_take. apply H.
Qed.

Lemma balanced_no_unmatched_opening r d : balanced r -> ¬ unmatched_opening r d.
Proof.
  intros [Hcov Heq] [Hd Hun].
  specialize (Hcov d). specialize (Hun (List.length (drop (S d) r))).
  rewrite firstn_all in Hun.
  rewrite <- (take_drop_middle _ _ _ Hd) in Heq.
  unfold closes, opens in *. rewrite !count_app in Heq. simpl in Heq. lia.
Qed.

Lemma unmatched_opening_drop s j d :
  unmatched_opening s (S j + d) -> unmatched_opening (drop (S j) s) d.
Proof.
  intros [Hd Hun]. split.
  - by rewrite lookup_drop.
  - intros k. rewrite drop_drop. replace (S j + S d)%nat with (S (S j + d)) by lia.
    apply Hun.
Qed.

Lemma closing_after_balanced s i :
  s !! i = Some ")"%string -> balanced (take i s) ->
  unmatched_closing s i ∧ ∀ k, unmatched_closing s k -> (i ≤ k)%nat.
Proof.
  intros Hi [Hcov Heq]. split.
  - split; [done|]. intros k. specialize (Hcov k).
    pose proof (count_take_drop "(" k (take i s)).
    pose proof (count_take_drop ")" k (take i s)).
    unfold closes, opens in *. lia.
  - intros k Hk. destruct (decide (i ≤ k)%nat) as [|Hlt]; [done|].
    exfalso. apply (covered_no_unmatched_closing s k); [|done].
    replace (take (S k) s) with (take (S k) (take i s)).
    + by apply covered_take.
    + rewrite take_take. f_equal. lia.
Qed.

Lemma opening_before_balanced s j :
  covered 0 s -> s !! j = Some "("%string -> balanced (drop (S j) s) ->
  (∀ k, ¬ unmatched_closing s k)
  ∧ unmatched_opening s j ∧ ∀ k, unmatched_opening s k -> (k ≤ j)%nat.
Proof.
  intros Hcov Hj Hbal. split; [|split].
  - intros k. apply covered_no_unmatched_closing. by apply covered_take.
  - split; [done|]. intros k. pose proof (proj1 Hbal k). lia.
  - intros k Hk. destruct (decide (k ≤ j)%nat) as [|Hlt]; [done|].
    exfalso. apply (balanced_no_unmatched_opening (drop (S j) s) (k - S j) Hbal).
    apply unmatched_opening_drop. by replace (S j + (k - S j))%nat with k by lia.
Qed.

Lemma balanced_all_matched s :
  balanced s -> ∀ k, ¬ unmatched_closing s k ∧ ¬ unmatched_opening s k.
Proof.
  intros Hbal k. split.
  - apply covered_no_unmatched_closing. apply covered_take, Hbal.
  - by apply balanced_no_unmatched_opening.
Qed.

(** C3 (as amended): [find_parens] returns a pair list, or raises for the
    first closing bracket without partner, carrying its index, or, when every
    closing bracket has a partner, raises for the last opening bracket
    without partner (the top of the stack after the scan), carrying its
    index; on ["(()"] that index is 0. *)
Theorem find_parens_error_index :
  (∀ s : list string,
     (∃ pairs, find_parens s = inr pairs
               ∧ ∀ k, ¬ unmatched_closing s k ∧ ¬ unmatched_opening s k)
     ∨ (∃ i, find_parens s = inl (IndexError (NoMatchingClosing i))
             ∧ unmatched_closing s i
             ∧ ∀ k, unmatched_closing s k → (i ≤ k)%nat)
     ∨ (∃ j, find_parens s = inl (IndexError (NoMatchingOpening j))
             ∧ (∀ k, ¬ unmatched_closing s k)
             ∧ unmatched_opening s j
             ∧ ∀ k, unmatched_opening s k → (k ≤ j)%nat))
  ∧ find_parens (chars "(()") = inl (IndexError (NoMatchingOpening 0)).
Proof.
  split; [|reflexivity].
  intros s. unfold find_parens, enumerate.
  destruct (for_each find_parens_step ([], []) (enumerate_from 0 s))
    as [e|st] eqn:Hscan; simpl.
  - apply scan_closing_error in Hscan as (n & -> & Hn & Hd).
    right; left. exists n. split; [done|]. by apply closing_after_balanced.
  - apply scan_final_stack in Hscan
      as [Hcov [(m & Hm & Hdrop & Hd)|(n & rest & Hst & Hn & Hb)]]; simpl in *.
    + assert (m = 0%nat) as -> by lia. rewrite Hdrop. simpl.
      left. eexists. split; [done|]. by apply balanced_all_matched.
    + rewrite Hst. right; right. exists n. split; [done|].
      by apply opening_before_balanced.
Qed.

(** C3 (as stated) fails on ["(("]: the error carries index 1, and the first
    opening bracket without partner is at index 0. *)
Lemma find_parens_reports_last_opening :
  find_parens (chars "((") = inl (IndexError (NoMatchingOpening 1))
  ∧ unmatched_opening (chars "((") 0
  ∧ (0 < 1)%nat.
Proof.
  split; [reflexivity|]. split; [|lia]. split; [reflexivity|].
  intros [|[|k]]; unfold closes, opens; simpl; lia.
Qed.

(** ** The pairs [find_parens] records *)

Lemma dict_set_Forall (P : nat * nat -> Prop) k v d :
  P (k, v) -> (∀ v', P (k, v') -> P (k, v)) -> Forall P d -> Forall P (dict_set k v d).
Proof.
  intros Hkv Hrepl. induction 1 as [|[k' v'] d Hx Hd IH]; simpl.
  - by constructor.
  - destruct (Nat.eqb_spec k k') as [<-|_]; constructor; eauto.
Qed.

Lemma scan_toret_increasing s : ∀ i st st',
  for_each find_parens_step st (enumerate_from i s) = inr st' ->
  Forall (fun kv => kv.1 < kv.2)%nat st.1 -> Forall (fun j => j < i)%nat st.2 ->
  Forall (fun kv => kv.1 < kv.2)%nat st'.1.
Proof.
  induction s as [|c s IH]; intros i st st'; simpl; [by intros [= <-]|].
  destruct (find_parens_step_cases st i c)
    as [[-> Hs]|[(-> & Hst & Hs)|[(-> & top & rest & Hst & Hs)|(Ho & Hc & Hs)]]];
    rewrite Hs; intros H Htoret Hstack; [ | done | | ];
    apply IH in H; try done; simpl.
  - constructor; [lia|]. eapply Forall_impl; [done|]. simpl. lia.
  - rewrite Hst in Hstack. apply Forall_cons in Hstack as [Htop _].
    apply dict_set_Forall; [done|done|done].
  - rewrite Hst in Hstack. apply Forall_cons in Hstack as [_ Hrest].
    eapply Forall_impl; [done|]. simpl. lia.
  - eapply Forall_impl; [done|]. simpl. lia.
Qed.

Lemma tupled_toret_items (d acc : list (nat * nat)) :
  foldl (fun tupled_toret kv => tupled_toret ++ [kv]) acc d = acc ++ d.
Proof.
  revert acc. induction d as [|kv d IH]; intros acc; simpl.
  - by rewrite app_nil_r.
  - rewrite IH, <- app_assoc. done.
Qed.

Lemma find_parens_increasing s pairs :
  find_parens s = inr pairs -> Forall (fun kv => kv.1 < kv.2)%nat pairs.
Proof.
  unfold find_parens, enumerate.
  destruct (for_each find_parens_step ([], []) (enumerate_from 0 s))
    as [e|st] eqn:Hscan; simpl; [done|].
  apply scan_toret_increasing in Hscan; [|by constructor|by constructor].
  destruct st.2; [|done]. intros [= <-]. by rewrite tupled_toret_items.
Qed.

(** ** [read_jv] *)

Lemma read_jv_lines_skipped anno_resi jv_file :
  Forall (fun line => re_match_header line = false) jv_file ->
  for_each read_jv_line anno_resi jv_file = inr anno_resi.
Proof.
  intros H. apply for_each_unchanged. eapply Forall_impl; [done|].
  intros line Hline. unfold read_jv_line. by rewrite Hline.
Qed.

Lemma read_jv_lines_total jv_file : ∀ anno_resi,
  Forall (fun line => re_match_header line = true ->
                      ∃ payload, annotation_payload line = inr payload) jv_file ->
  ∃ anno_resi', for_each read_jv_line anno_resi jv_file = inr anno_resi'.
Proof.
  induction jv_file as [|line jv_file IH]; intros anno_resi H; simpl; [by eexists|].
  apply Forall_cons in H as [Hline H]. unfold read_jv_line at 1.
  destruct (re_match_header line).
  - destruct Hline as [payload ->]; [done|]. simpl. by apply IH.
  - simpl. by apply IH.
Qed.

(** C5 (as amended): every line that matches the header is read and the
    last one wins: when each matching line has a third tab-separated field,
    the pairs returned are those of the payload of the last matching line. *)
Theorem read_jv_last_match_wins (before after : list string) (line : string)
    (payload : list string) :
  Forall (fun l => re_match_header l = true ->
                   ∃ p, annotation_payload l = inr p) before ->
  re_match_header line = true ->
  annotation_payload line = inr payload ->
  Forall (fun l => re_match_header l = false) after ->
  read_jv (before ++ line :: after) = find_parens payload.
Proof.
  intros Hbefore Hline Hpayload Hafter. unfold read_jv.
  rewrite for_each_app.
  destruct (read_jv_lines_total before None Hbefore) as [anno_resi ->].
  simpl. unfold read_jv_line at 1. rewrite Hline, Hpayload. simpl.
  by rewrite read_jv_lines_skipped.
Qed.

Lemma read_jv_last_match_wins_witness :
  read_jv ([annotation_line "(|)|"] ++ annotation_line ".|(|)|" :: ["end"%string])
  = find_parens ["."; "("; ")"; String newline EmptyString]%string.
Proof.
  apply (read_jv_last_match_wins
           [annotation_line "(|)|"] ["end"%string] (annotation_line ".|(|)|")).
  - repeat constructor. intros _. eexists. reflexivity.
  - reflexivity.
  - reflexivity.
  - repeat constructor.
Defined.

(** C5 (as stated) fails on a file with two matching lines: the pairs
    returned are those of the second line, not those of the first. *)
Lemma read_jv_second_match_overrides :
  read_jv [annotation_line "(|)|"; annotation_line ".|(|)|"] = inr [(1, 2)%nat]
  ∧ (annotation_payload (annotation_line "(|)|") ≫= find_parens) = inr [(0, 1)%nat]
  ∧ [(1, 2)%nat] ≠ [(0, 1)%nat].
Proof. split; [reflexivity|]. split; [reflexivity|discriminate]. Qed.

(** C10: when no line of the file matches the annotation header, [read_jv]
    raises the [NameError] of the unassigned [anno_resi]. *)
Theorem read_jv_no_header_NameError (jv_file : list string) :
  Forall (fun line => re_match_header line = false) jv_file ->
  read_jv jv_file = inl (UnboundLocalError "anno_resi")
  ∧ is_NameError (UnboundLocalError "anno_resi") = true.
Proof.
  intros H. unfold read_jv. by rewrite read_jv_lines_skipped.
Qed.

Lemma read_jv_no_header_NameError_witness :
  read_jv ["JALVIEW_ANNOTATION"; "NO_GRAPH Secondary structure"]%string
  = inl (UnboundLocalError "anno_resi")
  ∧ is_NameError (UnboundLocalError "anno_resi") = true.
Proof.
  apply (read_jv_no_header_NameError
           ["JALVIEW_ANNOTATION"; "NO_GRAPH Secondary structure"]%string).
  repeat constructor.
Defined.

(** C6 (as amended): every pair that [read_jv] returns has its first
    position below its second, so the two are distinct. *)
Theorem read_jv_pairs_distinct (jv_file : list string) (pairs : list (nat * nat))
    (p q : nat) :
  read_jv jv_file = inr pairs -> (p, q) ∈ pairs -> (p < q)%nat ∧ p ≠ q.
Proof.
  unfold read_jv.
  destruct (for_each read_jv_line None jv_file) as [e|[s|]]; simpl; [done| |done].
  intros Hs Hpq. apply find_parens_increasing in Hs.
  rewrite Forall_forall in Hs. apply Hs in Hpq. simpl in Hpq. lia.
Qed.

Lemma read_jv_pairs_distinct_witness :
  read_jv [annotation_line "(|)|"] = inr [(0, 1)%nat]
  ∧ (0 < 1)%nat ∧ 0%nat ≠ 1%nat.
Proof.
  split; [reflexivity|].
  apply (read_jv_pairs_distinct [annotation_line "(|)|"] [(0, 1)%nat] 0 1).
  - reflexivity.
  - apply list_elem_of_here.
Defined.

(** C6 (as stated) fails for the two table parsers: a row that names one
    position twice yields a pair of equal positions. *)
Lemma table_parsers_keep_equal_positions :
  read_bpseq ["5 X 5"%string] = inr [(5, 5)]
  ∧ read_csv [["header"]; ["A:5"; "cWW"; "B:5"]]%string = inr [(5, 5); (5, 5); (5, 5)].
Proof. split; reflexivity. Qed.

(** C9 (as amended): on ["((.))"] [find_parens] returns the pairs (0,4) and
    (1,3) in the order their closing brackets are met: [(1,3),(0,4)]. *)
Theorem find_parens_nested_example :
  find_parens (chars "((.))") = inr [(1, 3); (0, 4)]%nat.
Proof. reflexivity. Qed.

(** C9 (as stated) fails: the list returned is not [(0,4),(1,3)]. *)
Lemma find_parens_nested_order :
  find_parens (chars "((.))") = inr [(1, 3); (0, 4)]%nat
  ∧ [(1, 3); (0, 4)]%nat ≠ [(0, 4); (1, 3)]%nat.
Proof. split; [reflexivity|discriminate]. Qed.

(** ** [read_csv] *)

Lemma colon_int_after_colon row k z : after_colon row k z -> colon_int row k = inr z.
Proof.
  intros (field & text & Hfield & Htext & Hz). unfold colon_int, subscript, int.
  rewrite Hfield. simpl. rewrite Htext. simpl. by rewrite Hz.
Qed.

Lemma row_tuple_after_colon row pq :
  after_colon row 0 pq.1 -> after_colon row 2 pq.2 -> row_tuple row = inr pq.
Proof.
  intros H0 H2. unfold row_tuple.
  rewrite (colon_int_after_colon _ _ _ H0). simpl.
  rewrite (colon_int_after_colon _ _ _ H2). simpl. by destruct pq.
Qed.

Lemma read_csv_data_rows rows : ∀ pairs line_count cannonical_tuples,
  Forall2 (fun row pq => row_tuple row = inr pq) rows pairs ->
  for_each read_csv_row (S line_count, cannonical_tuples) rows
  = inr ((S line_count + List.length rows)%nat,
         cannonical_tuples ++ flat_map (fun pq => replicate (List.length base_pairs) pq) pairs).
Proof.
  induction rows as [|row rows IH]; intros pairs line_count cannonical_tuples H.
  - apply Forall2_nil_inv_l in H as ->. simpl. by rewrite Nat.add_0_r, app_nil_r.
  - apply Forall2_cons_inv_l in H as (pq & pairs' & Hrow & Hrows & ->).
    simpl. rewrite Hrow. simpl.
    rewrite (IH pairs' (line_count + 1)%nat _ Hrows).
    f_equal. f_equal; [lia|]. by rewrite <- !app_assoc.
Qed.

(** C8: [read_csv] skips the header row whatever it holds, and every data
    row contributes one copy per entry of [base_pairs], three in all, of the
    pair of the integer after the colon in its first field and the integer
    after the colon in its third field. *)
Theorem read_csv_three_copies_per_row (header : list string)
    (rows : list (list string)) (pairs : list (Z * Z)) :
  Forall2 (fun row pq => after_colon row 0 pq.1 ∧ after_colon row 2 pq.2) rows pairs ->
  read_csv (header :: rows)
  = inr (flat_map (fun pq => replicate (List.length base_pairs) pq) pairs)
  ∧ List.length base_pairs = 3%nat.
Proof.
  intros H. split; [|done]. unfold read_csv. simpl.
  rewrite (read_csv_data_rows rows pairs 0 []); [done|].
  eapply Forall2_impl; [done|]. intros row pq [H0 H2].
  by apply row_tuple_after_colon.
Qed.

Lemma read_csv_three_copies_per_row_witness :
  read_csv [["res1"; "type"; "res2"]; ["A:3"; "cWW"; "B:8"]; ["A:4"; "cWW"; "B:7"]]%string
  = inr [(3, 8); (3, 8); (3, 8); (4, 7); (4, 7); (4, 7)]
  ∧ List.length base_pairs = 3%nat.
Proof.
  apply (read_csv_three_copies_per_row ["res1"; "type"; "res2"]%string
           [["A:3"; "cWW"; "B:8"]; ["A:4"; "cWW"; "B:7"]]%string [(3, 8); (4, 7)]).
  repeat constructor; by eexists _, _.
Defined.

(** ** [read_bpseq] *)

Lemma str_tuple_never_in a b (cannonical_tuples : list (Z * Z)) :
  tuple_in (PStr a, PStr b) (int_tuple <$> cannonical_tuples) = false.
Proof. induction cannonical_tuples as [|t l IH]; simpl; [done|]. apply IH. Qed.

(** C2 fails on the code: the membership test compares a tuple of [str]
    with tuples of [int], so it never holds, and a pair listed from both of
    its residues, or listed twice, is returned each time. *)
Theorem read_bpseq_keeps_duplicates :
  (∀ a b cannonical_tuples,
     tuple_in (PStr a, PStr b) (int_tuple <$> cannonical_tuples) = false)
  ∧ read_bpseq ["1 G 5"; "2 A 0"; "5 C 1"; "1 G 5"]%string
    = inr [(1, 5); (5, 1); (1, 5)].
Proof. split; [apply str_tuple_never_in|reflexivity]. Qed.

(** ** [ordered_pairs] *)

#[global] Instance tuple_le_total : Total tuple_le.
Proof. intros [p1 p2] [q1 q2]. unfold tuple_le. simpl. lia. Qed.

#[global] Instance tuple_le_trans : Transitive tuple_le.
Proof. intros [p1 p2] [q1 q2] [r1 r2]. unfold tuple_le. simpl. lia. Qed.

#[global] Instance tuple_le_antisymm : AntiSymm (=) tuple_le.
Proof.
  intros [p1 p2] [q1 q2]. unfold tuple_le. simpl. intros H1 H2.
  f_equal; lia.
Qed.

Lemma ordered_pairs_elem_of cann_tups pq : pq ∈ ordered_pairs cann_tups ↔ pq ∈ cann_tups.
Proof.
  unfold ordered_pairs. rewrite merge_sort_Permutation, elem_of_elements.
  apply elem_of_list_to_set.
Qed.

Lemma ordered_pairs_NoDup cann_tups : NoDup (ordered_pairs cann_tups).
Proof.
  unfold ordered_pairs. rewrite merge_sort_Permutation. apply NoDup_elements.
Qed.

Lemma ordered_pairs_sorted cann_tups : StronglySorted tuple_le (ordered_pairs cann_tups).
Proof. apply (StronglySorted_merge_sort _). Qed.

Lemma ordered_pairs_nil_iff cann_tups : ordered_pairs cann_tups = [] ↔ cann_tups = [].
Proof.
  split; [|by intros ->].
  intros H. destruct cann_tups as [|pq l]; [done|].
  assert (pq ∈ ordered_pairs (pq :: l)) as Hin
    by (apply ordered_pairs_elem_of; apply list_elem_of_here).
  rewrite H in Hin. by apply not_elem_of_nil in Hin.
Qed.

(** ** [create_helices] *)

Lemma helix_keys_append hb hn l x :
  hb !! hn = Some l -> helix_keys hb hn -> helix_keys (<[hn := l ++ [x]]> hb) hn.
Proof.
  intros Hl [Hsize Hkeys]. split.
  - rewrite map_size_insert_Some; [done|by eexists].
  - intros k. rewrite lookup_insert. case_decide as Hk.
    + subst k. split; [lia|by eexists].
    + apply Hkeys.
Qed.

Lemma helix_keys_open hb hn :
  helix_keys hb hn -> helix_keys (<[(hn + 1)%nat := []]> hb) (hn + 1).
Proof.
  intros [Hsize Hkeys].
  assert (hb !! (hn + 1)%nat = None) as Hnone.
  { apply eq_None_not_Some. rewrite Hkeys. lia. }
  split.
  - rewrite map_size_insert_None; [lia|done].
  - intros k. rewrite lookup_insert. case_decide as Hk.
    + subst k. split; [lia|by eexists].
    + rewrite Hkeys. lia.
Qed.

Lemma create_helices_later_steps ob : ∀ n k hb hn,
  (1 ≤ k)%nat -> (k + n)%nat = List.length ob -> helix_keys hb hn ->
  ∃ hb' hn', for_each (create_helices_step ob) (hb, hn) (seq k n) = inr (hb', hn')
             ∧ helix_keys hb' hn'.
Proof.
  induction n as [|n IH]; intros k hb hn Hk Hlen Hinv; simpl; [by eexists _, _|].
  destruct (lookup_lt_is_Some_2 ob k) as [cur Hcur]; [lia|].
  destruct (lookup_lt_is_Some_2 ob (k - 1)) as [prev Hprev]; [lia|].
  destruct (proj2 (proj2 Hinv hn)) as [l Hl]; [lia|].
  unfold create_helices_step at 1, subscript, dict_append.
  destruct (Nat.ltb_spec 0 k) as [_|]; [|lia].
  rewrite Hcur, Hprev. simpl.
  destruct ((cur.1 - 1 =? prev.1) || (cur.2 - 1 =? prev.2)).
  - rewrite Hl. simpl. apply IH; [lia|lia|]. by apply helix_keys_append.
  - simpl. apply IH; [lia|lia|]. by apply helix_keys_open.
Qed.

Lemma helix_keys_first x : helix_keys (<[0%nat := [] ++ [x]]> (<[0%nat := []]> ∅)) 0.
Proof.
  rewrite insert_insert_eq, insert_empty. split.
  - apply map_size_singleton.
  - intros k. rewrite lookup_singleton. case_decide as Hk.
    + subst k. split; [lia|by eexists].
    + split; [by intros [? ?]|lia].
Qed.

Lemma create_helices_loop ob :
  ob ≠ [] ->
  ∃ hb hn, for_each (create_helices_step ob) (∅, 0%nat) (seq 0 (List.length ob))
           = inr (hb, hn)
           ∧ helix_keys hb hn.
Proof.
  destruct ob as [|x ob]; [done|]. intros _. simpl.
  apply (create_helices_later_steps (x :: ob)); [lia|done|apply helix_keys_first].
Qed.

(** C7 (as amended): for a non-empty input [create_helices] returns, and the
    second value is the index of the last helix: the mapping has the keys
    [0 .. helix_num], one more than the second value. *)
Theorem create_helices_last_index (cann_tups : list (Z * Z)) :
  cann_tups ≠ [] ->
  ∃ helix_basepairs helix_num,
    create_helices cann_tups = inr (helix_basepairs, helix_num)
    ∧ size helix_basepairs = S helix_num
    ∧ ∀ k, is_Some (helix_basepairs !! k) ↔ (k ≤ helix_num)%nat.
Proof.
  intros H. unfold create_helices.
  apply create_helices_loop. by rewrite ordered_pairs_nil_iff.
Qed.

Lemma create_helices_last_index_witness :
  ∃ helix_basepairs helix_num,
    create_helices [(1, 20); (2, 19); (10, 11)] = inr (helix_basepairs, helix_num)
    ∧ size helix_basepairs = S helix_num
    ∧ ∀ k, is_Some (helix_basepairs !! k) ↔ (k ≤ helix_num)%nat.
Proof. apply (create_helices_last_index [(1, 20); (2, 19); (10, 11)]). discriminate. Defined.

(** C7 (as stated) fails on a single pair: the mapping has one helix and the
    second value is 0. *)
Lemma create_helices_single_pair :
  create_helices [(1, 2)] = inr ({[ 0%nat := [(1, 2)] ]}, 0%nat)
  ∧ size ({[ 0%nat := [(1, 2)] ]} : gmap nat (list (Z * Z))) = 1%nat.
Proof. split; [vm_compute; reflexivity|apply map_size_singleton]. Qed.

(** C4 (as amended): on an input whose ordered pair sequence is empty, which
    is the empty input, [create_helices] raises nothing: it returns the
    empty mapping and 0. *)
Theorem create_helices_empty (cann_tups : list (Z * Z)) :
  ordered_pairs cann_tups = [] ->
  cann_tups = [] ∧ create_helices cann_tups = inr (∅, 0%nat).
Proof.
  intros H. split; [by apply ordered_pairs_nil_iff|].
  unfold create_helices. by rewrite H.
Qed.

Lemma create_helices_empty_witness :
  ordered_pairs [] = [] ∧ [] = ([] : list (Z * Z)) ∧ create_helices [] = inr (∅, 0%nat).
Proof. split; [reflexivity|]. apply (create_helices_empty []). reflexivity. Defined.

(** C4 (as stated) fails on the empty list: a value is returned. *)
Lemma create_helices_nil_returns :
  create_helices [] = inr (∅, 0%nat).
Proof. reflexivity. Qed.

(** C1 fails on the code: the pair that opens a helix after the first is
    dropped.  On the ordered sequence (1,20), (2,19), (3,18), (10,11) helix 1
    is left empty and (10,11) is in no helix. *)
Theorem create_helices_drops_opening_pair :
  ordered_pairs [(1, 20); (2, 19); (3, 18); (10, 11)]
  = [(1, 20); (2, 19); (3, 18); (10, 11)]
  ∧ create_helices [(1, 20); (2, 19); (3, 18); (10, 11)]
    = inr (<[1%nat := []]> {[ 0%nat := [(1, 20); (2, 19); (3, 18)] ]}, 1%nat)
  ∧ helix_pairs (<[1%nat := []]> {[ 0%nat := [(1, 20); (2, 19); (3, 18)] ]}) 1
    = [(1, 20); (2, 19); (3, 18)].
Proof. split; [|split]; vm_compute; reflexivity. Qed.

(** ** The pairs [create_helices] keeps *)

Lemma flat_map_seq_ext {B : Type} (f g : nat -> list B) k n :
  (∀ i, (k ≤ i < k + n)%nat -> f i = g i) ->
  flat_map f (seq k n) = flat_map g (seq k n).
Proof.
  revert k. induction n as [|n IH]; intros k H; simpl; [done|].
  rewrite (H k) by lia. f_equal. apply IH. intros i Hi. apply H. lia.
Qed.

Lemma helix_pairs_last hb hn :
  helix_pairs hb hn
  = flat_map (fun k => default [] (hb !! k)) (seq 0 hn) ++ default [] (hb !! hn).
Proof.
  unfold helix_pairs. rewrite seq_S, flat_map_app. simpl. by rewrite app_nil_r.
Qed.

Lemma helix_pairs_append hb hn l x :
  hb !! hn = Some l ->
  helix_pairs (<[hn := l ++ [x]]> hb) hn = helix_pairs hb hn ++ [x].
Proof.
  intros Hl. rewrite !helix_pairs_last, lookup_insert_eq, Hl. simpl.
  rewrite app_assoc. f_equal. f_equal. apply flat_map_seq_ext.
  intros i Hi. rewrite lookup_insert_ne by lia. done.
Qed.

Lemma helix_pairs_open hb hn :
  helix_pairs (<[(hn + 1)%nat := []]> hb) (hn + 1) = helix_pairs hb hn.
Proof.
  rewrite (helix_pairs_last _ (hn + 1)), lookup_insert_eq. simpl.
  rewrite app_nil_r. replace (hn + 1)%nat with (S hn) by lia.
  apply flat_map_seq_ext. intros i Hi. rewrite lookup_insert_ne by lia. done.
Qed.

Lemma create_helices_later_pairs ob : ∀ n k hb hn prev,
  (k + n)%nat = List.length ob -> ob !! (k - 1)%nat = Some prev -> (1 ≤ k)%nat ->
  helix_keys hb hn ->
  ∃ hb' hn', for_each (create_helices_step ob) (hb, hn) (seq k n) = inr (hb', hn')
             ∧ helix_pairs hb' hn' = helix_pairs hb hn ++ adjacent_after prev (drop k ob).
Proof.
  induction n as [|n IH]; intros k hb hn prev Hlen Hprev Hk Hinv; simpl.
  { exists hb, hn. rewrite drop_ge by lia. simpl. by rewrite app_nil_r. }
  destruct (lookup_lt_is_Some_2 ob k) as [cur Hcur]; [lia|].
  destruct (proj2 (proj2 Hinv hn)) as [l Hl]; [lia|].
  rewrite (drop_S _ _ _ Hcur). simpl.
  unfold create_helices_step at 1, subscript, dict_append.
  destruct (Nat.ltb_spec 0 k) as [_|]; [|lia].
  rewrite Hcur, Hprev. simpl. unfold strand_adjacent.
  destruct ((cur.1 - 1 =? prev.1) || (cur.2 - 1 =? prev.2)).
  - rewrite Hl. simpl.
    destruct (IH (S k) (<[hn := l ++ [cur]]> hb) hn cur) as (hb' & hn' & Hrun & Hpairs);
      [lia|by rewrite Nat.sub_1_r|lia|by apply helix_keys_append|].
    exists hb', hn'. split; [exact Hrun|].
    by rewrite Hpairs, helix_pairs_append, <- app_assoc.
  - simpl.
    destruct (IH (S k) (<[(hn + 1)%nat := []]> hb) (hn + 1)%nat cur)
      as (hb' & hn' & Hrun & Hpairs);
      [lia|by rewrite Nat.sub_1_r|lia|by apply helix_keys_open|].
    exists hb', hn'. split; [exact Hrun|]. by rewrite Hpairs, helix_pairs_open.
Qed.

(** [create_helices] returns on every input, and the pairs of its helices,
    helix after helix, are the first pair of the ordered sequence followed by
    the later pairs that are adjacent to their predecessor: a pair that is
    not adjacent opens a helix and is left out of it. *)
Lemma create_helices_pairs (cann_tups : list (Z * Z)) :
  ∃ helix_basepairs helix_num,
    create_helices cann_tups = inr (helix_basepairs, helix_num)
    ∧ helix_pairs helix_basepairs helix_num
      = first_and_adjacent (ordered_pairs cann_tups).
Proof.
  unfold create_helices. destruct (ordered_pairs cann_tups) as [|first l] eqn:Hob.
  { by exists ∅, 0%nat. }
  simpl.
  destruct (create_helices_later_pairs (first :: l) (List.length l) 1
              (<[0%nat := [] ++ [first]]> (<[0%nat := []]> ∅)) 0%nat first)
    as (hb' & hn' & Hrun & Hpairs); [done|done|lia|apply helix_keys_first|].
  exists hb', hn'. split; [exact Hrun|]. rewrite Hpairs. simpl. by rewrite drop_0.
Qed.

(** ** What the normalisation guarantees *)

(** The ordered pair sequence is sorted, holds no pair twice, has the
    members of the input, and ordering it again changes nothing. *)
Lemma ordered_pairs_normal (cann_tups : list (Z * Z)) :
  StronglySorted tuple_le (ordered_pairs cann_tups)
  ∧ NoDup (ordered_pairs cann_tups)
  ∧ (∀ pq, pq ∈ ordered_pairs cann_tups ↔ pq ∈ cann_tups)
  ∧ ordered_pairs (ordered_pairs cann_tups) = ordered_pairs cann_tups.
Proof.
  split; [apply ordered_pairs_sorted|]. split; [apply ordered_pairs_NoDup|].
  split; [apply ordered_pairs_elem_of|].
  apply (StronglySorted_unique tuple_le); [apply ordered_pairs_sorted..|].
  apply NoDup_Permutation; [apply ordered_pairs_NoDup..|].
  intros pq. apply ordered_pairs_elem_of.
Qed.

(** ** What [read_bpseq] returns *)

Lemma ws_int_field row k z :
  ws_int row k = inr z -> ∃ field, subscript (split_ws row) k = inr field.
Proof.
  unfold ws_int. destruct (subscript (split_ws row) k) as [e|field]; [done|].
  by exists field.
Qed.

Lemma str_tuple_in_false row j k zj zk cannonical_tuples :
  ws_int row j = inr zj -> ws_int row k = inr zk ->
  str_tuple_in row j k cannonical_tuples = inr false.
Proof.
  intros [fj Hj]%ws_int_field [fk Hk]%ws_int_field. unfold str_tuple_in.
  rewrite Hj, Hk. simpl. by rewrite str_tuple_never_in.
Qed.

Lemma read_bpseq_row_paired row p q cannonical_tuples :
  ws_int row 0 = inr p -> ws_int row 2 = inr q ->
  read_bpseq_row cannonical_tuples row
  = inr (if decide (p ≠ 0 ∧ q ≠ 0) then cannonical_tuples ++ [(p, q)]
         else cannonical_tuples).
Proof.
  intros Hp Hq. case_decide as Hd.
  - destruct Hd as [Hp0 Hq0]. unfold read_bpseq_row, append_row.
    rewrite Hp. simpl. rewrite (proj2 (Z.eqb_neq p 0) Hp0). simpl.
    rewrite Hq. simpl. rewrite (proj2 (Z.eqb_neq q 0) Hq0). simpl.
    destruct (List.length cannonical_tuples <? 1)%nat.
    + done.
    + rewrite (str_tuple_in_false row 0 2 p q) by done. simpl.
      by rewrite (str_tuple_in_false row 2 0 q p) by done.
  - unfold read_bpseq_row. rewrite Hp. simpl.
    destruct (Z.eqb_spec p 0) as [->|Hp0]; simpl; [done|].
    rewrite Hq. simpl. destruct (Z.eqb_spec q 0) as [->|Hq0]; simpl; [done|].
    exfalso. by apply Hd.
Qed.

Lemma read_bpseq_rows bp_file : ∀ positions cannonical_tuples,
  Forall2 (fun row pq => ws_int row 0 = inr pq.1 ∧ ws_int row 2 = inr pq.2)
    bp_file positions ->
  for_each read_bpseq_row cannonical_tuples bp_file
  = inr (cannonical_tuples ++ filter (fun pq => pq.1 ≠ 0 ∧ pq.2 ≠ 0) positions).
Proof.
  induction bp_file as [|row bp_file IH]; intros positions cannonical_tuples H.
  - apply Forall2_nil_inv_l in H as ->. simpl. by rewrite app_nil_r.
  - apply Forall2_cons_inv_l in H as ([p q] & positions' & [Hp Hq] & Hrows & ->).
    simpl in *. rewrite (read_bpseq_row_paired row p q) by done.
    rewrite (IH positions') by done. rewrite filter_cons. simpl.
    destruct (decide (p ≠ 0 ∧ q ≠ 0)); [|done]. by rewrite <- app_assoc.
Qed.

(** When every row holds integers in its first and third fields,
    [read_bpseq] returns the pair of every row in which neither is 0, in file
    order, whether or not the pair was met before. *)
Lemma read_bpseq_every_paired_row (bp_file : list string) (positions : list (Z * Z)) :
  Forall2 (fun row pq => ws_int row 0 = inr pq.1 ∧ ws_int row 2 = inr pq.2)
    bp_file positions ->
  read_bpseq bp_file = inr (filter (fun pq => pq.1 ≠ 0 ∧ pq.2 ≠ 0) positions).
Proof. intros H. unfold read_bpseq. by rewrite (read_bpseq_rows _ positions []). Qed.

Lemma read_bpseq_every_paired_row_witness :
  read_bpseq ["1 G 5"; "2 A 0"; "5 C 1"]%string = inr [(1, 5); (5, 1)].
Proof.
  apply (read_bpseq_every_paired_row ["1 G 5"; "2 A 0"; "5 C 1"]%string
           [(1, 5); (2, 0); (5, 1)]).
  repeat constructor.
Defined.

(** ** The pairs [find_parens] returns are the matching brackets *)

Lemma scan_invariant (s : list string) (I : nat -> list (nat * nat) * list nat -> Prop) :
  (∀ i c st st', s !! i = Some c -> I i st ->
                 find_parens_step st (i, c) = inr st' -> I (S i) st') ->
  ∀ rest i st st',
    drop i s = rest -> (i ≤ List.length s)%nat ->
    for_each find_parens_step st (enumerate_from i rest) = inr st' ->
    I i st -> I (List.length s) st'.
Proof.
  intros Hstep. induction rest as [|c rest IH]; intros i st st' Hdrop Hi; simpl.
  - intros [= <-] HI. apply drop_nil_inv in Hdrop.
    by replace (List.length s) with i by lia.
  - assert (s !! i = Some c) as Hc.
    { rewrite <- (Nat.add_0_r i), <- lookup_drop, Hdrop. done. }
    destruct (find_parens_step st (i, c)) as [e|st1] eqn:Hst1; [done|].
    intros Hrun HI. apply (IH (S i) st1 st').
    + rewrite (drop_S _ _ _ Hc) in Hdrop. by injection Hdrop.
    + apply lookup_lt_Some in Hc. lia.
    + done.
    + by apply (Hstep i c st).
Qed.

Lemma covered_mono m m' l : (m ≤ m')%nat -> covered m l -> covered m' l.
Proof. intros Hm H k. specialize (H k). lia. Qed.

Lemma covered_app m m' l1 l2 :
  covered m l1 -> covered m' l2 -> (closes l1 + m' ≤ opens l1 + m)%nat ->
  covered m (l1 ++ l2).
Proof.
  intros H1 H2 Hm k. rewrite take_app. unfold covered, closes, opens in *.
  rewrite !count_app. specialize (H2 (k - List.length l1)%nat).
  destruct (decide (k ≤ List.length l1)%nat) as [Hk|Hk].
  - replace (k - List.length l1)%nat with 0%nat by lia. simpl.
    specialize (H1 k). lia.
  - rewrite take_ge by lia. lia.
Qed.

Lemma balanced_app l1 l2 : balanced l1 -> balanced l2 -> balanced (l1 ++ l2).
Proof.
  intros [H1 E1] [H2 E2]. split.
  - apply (covered_app 0 0); [done|done|lia].
  - unfold closes, opens in *. rewrite !count_app. lia.
Qed.

Lemma balanced_other c :
  String.eqb c "(" = false -> String.eqb c ")" = false -> balanced [c].
Proof. intros Ho Hc. apply dips_other; [done|done|apply balanced_nil]. Qed.

Lemma balanced_wrap l : balanced l -> balanced ("("%string :: l ++ [")"%string]).
Proof.
  intros [H E]. apply dips_open. split.
  - apply (covered_app 1 1); [apply (covered_mono 0); [lia|done]| |lia].
    apply (covered_close 0), covered_nil.
  - unfold closes, opens in *. rewrite !count_app. simpl. lia.
Qed.

Lemma segment_nil s a : segment s a a = [].
Proof. unfold segment. by rewrite Nat.sub_diag. Qed.

Lemma segment_split s a b c :
  (a ≤ b ≤ c)%nat -> segment s a c = segment s a b ++ segment s b c.
Proof.
  intros H. unfold segment.
  replace (c - a)%nat with ((b - a) + (c - b))%nat by lia.
  rewrite <- take_take_drop, drop_drop. by replace (a + (b - a))%nat with b by lia.
Qed.

Lemma segment_one s i c : s !! i = Some c -> segment s i (S i) = [c].
Proof.
  intros Hc. unfold segment. replace (S i - i)%nat with 1%nat by lia.
  by rewrite (drop_S _ _ _ Hc).
Qed.

Lemma segment_snoc s a i c :
  (a ≤ i)%nat -> s !! i = Some c -> segment s a (S i) = segment s a i ++ [c].
Proof.
  intros Ha Hc. rewrite (segment_split s a i (S i)) by lia.
  by rewrite (segment_one _ _ _ Hc).
Qed.

Lemma stack_nested_below s i pstack :
  stack_nested s i pstack -> Forall (fun j => j < i)%nat pstack.
Proof.
  revert i. induction pstack as [|j rest IH]; intros i; simpl; [by constructor|].
  intros (_ & Hj & _ & Hrest). constructor; [done|].
  eapply Forall_impl; [by apply IH|]. simpl. lia.
Qed.

Lemma stack_nested_other s i c pstack :
  s !! i = Some c -> String.eqb c "(" = false -> String.eqb c ")" = false ->
  stack_nested s i pstack -> stack_nested s (S i) pstack.
Proof.
  intros Hc Ho Hcl. destruct pstack as [|j rest]; simpl; [done|].
  intros (Hj & Hlt & Hbal & Hrest). split; [done|]. split; [lia|]. split; [|done].
  rewrite (segment_snoc _ _ _ c) by (done || lia).
  apply balanced_app; [done|by apply balanced_other].
Qed.

Lemma stack_nested_pop s i top rest :
  s !! i = Some ")"%string -> stack_nested s i (top :: rest) ->
  stack_nested s (S i) rest.
Proof.
  intros Hi (Htop & Hlt & Hbal & Hrest).
  destruct rest as [|j rest']; simpl in *; [done|].
  destruct Hrest as (Hj & Hjt & Hbalj & Hrest'). split; [done|]. split; [lia|]. split; [|done].
  rewrite (segment_split s (S j) top (S i)) by lia.
  apply balanced_app; [done|].
  rewrite (segment_split s top (S top) (S i)) by lia.
  rewrite (segment_one _ _ _ Htop). simpl.
  rewrite (segment_snoc _ _ _ ")"%string) by (done || lia).
  by apply balanced_wrap.
Qed.

Lemma dict_set_fresh k v d :
  Forall (fun kv => kv.1 ≠ k) d -> dict_set k v d = d ++ [(k, v)].
Proof.
  induction 1 as [|[k' v'] d Hk _ IH]; simpl; [done|].
  destruct (Nat.eqb_spec k k') as [->|_]; [done|]. by rewrite IH.
Qed.

Lemma closes_take_S s i c :
  s !! i = Some c ->
  closes (take (S i) s) = (closes (take i s) + (if String.eqb c ")" then 1 else 0))%nat.
Proof.
  intros Hc. rewrite (take_S_r _ _ _ Hc). unfold closes. rewrite count_app.
  simpl. lia.
Qed.

Lemma scan_state_step s i c st st' :
  s !! i = Some c -> scan_state s i st ->
  find_parens_step st (i, c) = inr st' -> scan_state s (S i) st'.
Proof.
  intros Hc (Hpairs & Hbelow & Hsorted & Hfresh & Hkeys & Hstack & Hlen).
  pose proof (closes_take_S s i c Hc) as Hcl.
  assert (Forall (fun kv => kv.2 < S i)%nat st.1) as Hbelow'.
  { eapply Forall_impl; [exact Hbelow|]. simpl. lia. }
  destruct (find_parens_step_cases st i c)
    as [[-> Hs]|[(-> & Hst & Hs)|[(-> & top & rest & Hst & Hs)|(Ho & Hcc & Hs)]]];
    rewrite Hs; intros [= <-]; unfold scan_state; simpl in *.
  - split; [done|]. split; [done|]. split; [done|]. split; [|split; [done|split]].
    + rewrite Forall_forall in *. intros kv Hkv.
      specialize (Hpairs kv Hkv) as (_ & _ & Hlt & _).
      specialize (Hbelow kv Hkv). specialize (Hfresh kv Hkv).
      rewrite not_elem_of_cons. split; [lia|done].
    + split; [done|]. split; [lia|]. rewrite segment_nil. split; [apply balanced_nil|done].
    + lia.
  - rewrite Hst in *. simpl in Hstack. destruct Hstack as (Htop & Hlt & Hbal & Hrest).
    assert (Forall (fun kv => kv.1 ≠ top) st.1) as Hnew.
    { eapply Forall_impl; [exact Hfresh|]. simpl. intros kv Hkv Heq.
      apply Hkv. rewrite Heq. apply list_elem_of_here. }
    rewrite (dict_set_fresh _ _ _ Hnew), !fmap_app. simpl.
    split; [|split; [|split; [|split; [|split; [|split]]]]].
    + apply Forall_app. split; [done|]. apply Forall_singleton.
      unfold matched_pair. simpl. done.
    + apply Forall_app. split; [done|]. apply Forall_singleton. simpl. lia.
    + apply StronglySorted_app_2; [|done|repeat constructor].
      intros x1 x2 Hx1 ->%list_elem_of_singleton.
      apply list_elem_of_fmap in Hx1 as (kv & -> & Hkv).
      rewrite Forall_forall in Hbelow. by apply Hbelow.
    + apply Forall_app. split.
      * eapply Forall_impl; [exact Hfresh|]. simpl. intros kv Hkv Hin.
        apply Hkv. by apply list_elem_of_further.
      * apply Forall_singleton. simpl. intros Hin.
        pose proof (stack_nested_below _ _ _ Hrest) as Hb.
        rewrite Forall_forall in Hb. apply Hb in Hin. lia.
    + apply NoDup_app. split; [done|]. split; [|apply NoDup_singleton].
      intros k Hk ->%list_elem_of_singleton.
      apply list_elem_of_fmap in Hk as (kv & Heq & Hkv).
      rewrite Forall_forall in Hnew. by apply (Hnew kv Hkv).
    + by apply (stack_nested_pop s i top rest).
    + rewrite length_app. simpl. lia.
  - rewrite Hcc in Hcl.
    split; [done|]. split; [done|]. split; [done|]. split; [done|].
    split; [done|]. split; [by apply (stack_nested_other s i c)|lia].
Qed.

(** On success every pair returned is an opening bracket with the closing
    bracket that ends the balanced stretch after it; the pairs come in the
    order of their closing brackets, no opening bracket is in two of them,
    and there is one pair for each closing and for each opening bracket. *)
Lemma find_parens_matching (s : list string) (pairs : list (nat * nat)) :
  find_parens s = inr pairs ->
  Forall (matched_pair s) pairs
  ∧ StronglySorted lt (pairs.*2)
  ∧ NoDup (pairs.*1)
  ∧ List.length pairs = closes s
  ∧ List.length pairs = opens s.
Proof.
  unfold find_parens, enumerate.
  destruct (for_each find_parens_step ([], []) (enumerate_from 0 s))
    as [e|st] eqn:Hscan; simpl; [done|].
  pose proof Hscan as Hfin. apply scan_final_stack in Hfin as [_ Hfin].
  apply (scan_invariant s (scan_state s) (scan_state_step s) s 0) in Hscan;
    [|done|lia|].
  - destruct Hscan as (Hpairs & _ & Hsorted & _ & Hkeys & _ & Hlen).
    destruct st.2 as [|top rest] eqn:Hst; [|done].
    intros [= <-]. rewrite tupled_toret_items. simpl.
    rewrite firstn_all in Hlen.
    destruct Hfin as [(m & Hm & _ & _ & Heq)|(n & rest & Hrest & _)]; [|done].
    simpl in Hm. repeat split; try done. lia.
  - repeat split; simpl; try by constructor.
Qed.

Lemma find_parens_matching_witness :
  Forall (matched_pair (chars "((.))")) [(1, 3); (0, 4)]%nat
  ∧ StronglySorted lt ([(1, 3); (0, 4)]%nat.*2)
  ∧ NoDup ([(1, 3); (0, 4)]%nat.*1)
  ∧ List.length [(1, 3); (0, 4)]%nat = closes (chars "((.))")
  ∧ List.length [(1, 3); (0, 4)]%nat = opens (chars "((.))").
Proof. apply (find_parens_matching (chars "((.))")). reflexivity. Defined.

(** ** How many pairs [create_helices] leaves out *)

Lemma create_helices_later_num ob : ∀ n k hb hn prev hb' hn',
  (k + n)%nat = List.length ob -> ob !! (k - 1)%nat = Some prev -> (1 ≤ k)%nat ->
  for_each (create_helices_step ob) (hb, hn) (seq k n) = inr (hb', hn') ->
  hn' = (hn + breaks_after prev (drop k ob))%nat.
Proof.
  induction n as [|n IH]; intros k hb hn prev hb' hn' Hlen Hprev Hk; simpl.
  { intros [= <- <-]. rewrite drop_ge by lia. simpl. lia. }
  destruct (lookup_lt_is_Some_2 ob k) as [cur Hcur]; [lia|].
  rewrite (drop_S _ _ _ Hcur). simpl.
  unfold create_helices_step at 1, subscript, dict_append.
  destruct (Nat.ltb_spec 0 k) as [_|]; [|lia].
  rewrite Hcur, Hprev. simpl. unfold strand_adjacent.
  destruct ((cur.1 - 1 =? prev.1) || (cur.2 - 1 =? prev.2)).
  - destruct (hb !! hn) as [l|]; simpl; [|done].
    intros Hrun. apply (IH (S k) _ _ cur) in Hrun; [lia|lia| |lia].
    by rewrite Nat.sub_1_r.
  - simpl. intros Hrun. apply (IH (S k) _ _ cur) in Hrun; [lia|lia| |lia].
    by rewrite Nat.sub_1_r.
Qed.

Lemma adjacent_after_length prev l :
  (List.length (adjacent_after prev l) + breaks_after prev l)%nat = List.length l.
Proof.
  revert prev. induction l as [|cur l IH]; intros prev; simpl; [done|].
  rewrite length_app. specialize (IH cur).
  destruct (strand_adjacent prev cur); simpl; lia.
Qed.

Lemma adjacent_after_all prev l :
  breaks_after prev l = 0%nat -> adjacent_after prev l = l.
Proof.
  revert prev. induction l as [|cur l IH]; intros prev; simpl; [done|].
  destruct (strand_adjacent prev cur); simpl; [|lia].
  intros H. by rewrite IH.
Qed.

(** The second value [create_helices] returns is the number of pairs of the
    ordered sequence that are not adjacent to their predecessor, and it is the
    number of pairs that are in no helix: the helices hold the whole ordered
    sequence exactly when the second value is 0. *)
Lemma create_helices_lost_pairs (cann_tups : list (Z * Z)) :
  ∃ helix_basepairs helix_num,
    create_helices cann_tups = inr (helix_basepairs, helix_num)
    ∧ helix_num = breaks (ordered_pairs cann_tups)
    ∧ (List.length (helix_pairs helix_basepairs helix_num) + helix_num)%nat
      = List.length (ordered_pairs cann_tups)
    ∧ (helix_pairs helix_basepairs helix_num = ordered_pairs cann_tups
       ↔ helix_num = 0%nat).
Proof.
  unfold create_helices, breaks.
  destruct (ordered_pairs cann_tups) as [|first l]; simpl.
  { exists ∅, 0%nat. by repeat split. }
  destruct (create_helices_later_pairs (first :: l) (List.length l) 1
              (<[0%nat := [] ++ [first]]> (<[0%nat := []]> ∅)) 0%nat first)
    as (hb & hn & Hrun & Hpairs); [done|done|lia|apply helix_keys_first|].
  exists hb, hn. split; [exact Hrun|].
  apply (create_helices_later_num (first :: l) _ 1 _ _ first) in Hrun;
    [|done|done|lia].
  simpl in Hrun, Hpairs. rewrite drop_0 in Hrun, Hpairs.
  replace (helix_pairs (<[0%nat := [first]]> (<[0%nat := []]> ∅)) 0)
    with [first] in Hpairs by reflexivity.
  pose proof (adjacent_after_length first l) as Hlen.
  rewrite Hpairs. simpl. split; [done|]. split; [lia|]. split.
  - intros [= Heq]. rewrite Heq in Hlen. lia.
  - intros H0. rewrite adjacent_after_all; [done|]. by rewrite <- Hrun.
Qed.

(** ** [create_helices] reads its input as a set *)

Lemma ordered_pairs_same_members (l1 l2 : list (Z * Z)) :
  (∀ pq, pq ∈ l1 ↔ pq ∈ l2) -> ordered_pairs l1 = ordered_pairs l2.
Proof.
  intros H. unfold ordered_pairs.
  replace (list_to_set l2 : gset (Z * Z)) with (list_to_set l1 : gset (Z * Z)); [done|].
  apply set_eq. intros pq. by rewrite !elem_of_list_to_set.
Qed.

(** Two pair lists with the same members, whatever their order and however
    often a pair is repeated, give the same helices. *)
Lemma create_helices_same_members (l1 l2 : list (Z * Z)) :
  (∀ pq, pq ∈ l1 ↔ pq ∈ l2) -> create_helices l1 = create_helices l2.
Proof.
  intros H. unfold create_helices. by rewrite (ordered_pairs_same_members l1 l2).
Qed.

Lemma create_helices_same_members_witness :
  create_helices [(3, 18); (1, 20); (2, 19); (1, 20)]
  = create_helices [(1, 20); (2, 19); (3, 18)].
Proof.
  apply (create_helices_same_members
           [(3, 18); (1, 20); (2, 19); (1, 20)] [(1, 20); (2, 19); (3, 18)]).
  intros pq. rewrite !elem_of_cons, elem_of_nil. tauto.
Defined.

(** An input that holds one pair, once or several times, gives one helix
    holding that pair. *)
Lemma create_helices_one_pair (cann_tups : list (Z * Z)) (pq : Z * Z) :
  cann_tups ≠ [] -> Forall (fun x => x = pq) cann_tups ->
  create_helices cann_tups = inr ({[ 0%nat := [pq] ]}, 0%nat).
Proof.
  intros Hne Hall. unfold create_helices.
  rewrite (ordered_pairs_same_members cann_tups [pq]).
  - unfold ordered_pairs. simpl.
    rewrite union_empty_r_L, elements_singleton. simpl.
    unfold create_helices_step, subscript, dict_append. simpl.
    rewrite lookup_insert_eq. simpl. by rewrite insert_insert_eq, insert_empty.
  - intros x. rewrite list_elem_of_singleton. rewrite Forall_forall in Hall. split.
    + apply Hall.
    + intros ->. destruct cann_tups as [|y l]; [done|].
      rewrite (Hall y) by apply list_elem_of_here. apply list_elem_of_here.
Qed.

Lemma create_helices_one_pair_witness :
  create_helices [(4, 9); (4, 9)] = inr ({[ 0%nat := [(4, 9)] ]}, 0%nat).
Proof.
  apply (create_helices_one_pair [(4, 9); (4, 9)] (4, 9)).
  - discriminate.
  - repeat constructor.
Defined.

(** ** What a helix holds *)

Lemma chained_nil : chained [].
Proof. intros i a b Ha. by rewrite lookup_nil in Ha. Qed.

Lemma chained_snoc h x :
  chained h -> (∀ p, last h = Some p -> strand_adjacent p x = true) ->
  chained (h ++ [x]).
Proof.
  intros Hh Hlast i a b Ha Hb.
  destruct (decide (S i < List.length h)%nat) as [Hlt|Hge].
  - rewrite lookup_app_l in Ha by lia. rewrite lookup_app_l in Hb by lia.
    by apply (Hh i).
  - assert (S i = List.length h) as Hi.
    { apply lookup_lt_Some in Hb. rewrite length_app in Hb. simpl in Hb. lia. }
    rewrite lookup_app_l in Ha by lia.
    rewrite lookup_app_r, Hi, Nat.sub_diag in Hb by lia. injection Hb as <-.
    apply Hlast. rewrite last_lookup. rewrite <- Hi. simpl. done.
Qed.

Lemma sublist_take_S (h ob : list (Z * Z)) i :
  h `sublist_of` take i ob -> h `sublist_of` take (S i) ob.
Proof.
  intros H. destruct (ob !! i) as [x|] eqn:Hx.
  - rewrite (take_S_r _ _ _ Hx). by apply sublist_inserts_r.
  - apply lookup_ge_None in Hx. rewrite take_ge by lia. by rewrite take_ge in H by lia.
Qed.

Lemma create_helices_later_lists ob : ∀ n k hb hn prev hb' hn',
  (k + n)%nat = List.length ob -> ob !! (k - 1)%nat = Some prev -> (1 ≤ k)%nat ->
  for_each (create_helices_step ob) (hb, hn) (seq k n) = inr (hb', hn') ->
  helix_lists ob k prev (hb, hn) ->
  ∀ j h, hb' !! j = Some h -> chained h ∧ h `sublist_of` ob.
Proof.
  induction n as [|n IH]; intros k hb hn prev hb' hn' Hlen Hprev Hk; simpl.
  { intros [= <- <-] [Hall _] j h Hh. apply Hall in Hh as [Hch Hsub].
    by rewrite take_ge in Hsub by lia. }
  destruct (lookup_lt_is_Some_2 ob k) as [cur Hcur]; [lia|].
  unfold create_helices_step at 1, subscript, dict_append.
  destruct (Nat.ltb_spec 0 k) as [_|]; [|lia].
  rewrite Hcur, Hprev. simpl.
  destruct ((cur.1 - 1 =? prev.1) || (cur.2 - 1 =? prev.2)) eqn:Hadj.
  - destruct (hb !! hn) as [l|] eqn:Hl; simpl; [|done].
    intros Hrun [Hall Hlast]. simpl in *.
    eapply (IH (S k) _ _ cur hb' hn'); [lia|by rewrite Nat.sub_1_r|lia|exact Hrun|].
    split; simpl.
    + intros j h. rewrite lookup_insert. case_decide as Hj.
      * intros [= <-]. destruct (Hall hn l Hl) as [Hch Hsub]. split.
        -- apply chained_snoc; [done|]. intros p Hp.
           rewrite (Hlast l p Hl Hp). exact Hadj.
        -- rewrite (take_S_r _ _ _ Hcur). by apply sublist_app.
      * intros Hh. destruct (Hall j h Hh) as [Hch Hsub].
        split; [done|by apply sublist_take_S].
    + intros h p. rewrite lookup_insert_eq. intros [= <-].
      rewrite last_snoc. by intros [= <-].
  - simpl. intros Hrun [Hall Hlast]. simpl in *.
    eapply (IH (S k) _ _ cur hb' hn'); [lia|by rewrite Nat.sub_1_r|lia|exact Hrun|].
    split; simpl.
    + intros j h. rewrite lookup_insert. case_decide as Hj.
      * intros [= <-]. split; [apply chained_nil|apply sublist_nil_l].
      * intros Hh. destruct (Hall j h Hh) as [Hch Hsub].
        split; [done|by apply sublist_take_S].
    + intros h p. rewrite lookup_insert_eq. by intros [= <-].
Qed.

(** Every helix [create_helices] returns lists pairs of the ordered sequence
    in the order of that sequence, and each pair of the helix but its first is
    strand-adjacent to the pair listed before it. *)
Lemma create_helices_helix_chained (cann_tups : list (Z * Z))
    (helix_basepairs : gmap nat (list (Z * Z))) (helix_num k : nat)
    (helix : list (Z * Z)) :
  create_helices cann_tups = inr (helix_basepairs, helix_num) ->
  helix_basepairs !! k = Some helix ->
  chained helix ∧ helix `sublist_of` ordered_pairs cann_tups.
Proof.
  unfold create_helices.
  destruct (ordered_pairs cann_tups) as [|first l]; simpl.
  { intros [= <- <-]. by rewrite lookup_empty. }
  intros Hrun. revert k helix.
  eapply (create_helices_later_lists (first :: l) _ 1 _ _ first helix_basepairs helix_num);
    [done|done|lia|exact Hrun|].
  split; simpl.
  - intros j h. rewrite insert_insert_eq, lookup_insert. case_decide; [|by rewrite lookup_empty].
    intros [= <-]. split.
    + intros i a b Ha Hb. by destruct i.
    + by apply sublist_skip, sublist_nil_l.
  - intros h p. rewrite lookup_insert_eq. by intros [= <-] [= <-].
Qed.

Lemma create_helices_helix_chained_witness :
  chained [(1, 20); (2, 19); (3, 18)]
  ∧ [(1, 20); (2, 19); (3, 18)]
    `sublist_of` ordered_pairs [(1, 20); (2, 19); (3, 18); (10, 11)].
Proof.
  apply (create_helices_helix_chained [(1, 20); (2, 19); (3, 18); (10, 11)]
           (<[1%nat := []]> {[ 0%nat := [(1, 20); (2, 19); (3, 18)] ]}) 1 0).
  - vm_compute. reflexivity.
  - reflexivity.
Defined.

(** ** Loops that keep an invariant, loops that raise *)

Lemma for_each_invariant {A St : Type} (I : St -> Prop) (body : St -> A -> result St) :
  (∀ st x st', I st -> body st x = inr st' -> I st') ->
  ∀ l st st', I st -> for_each body st l = inr st' -> I st'.
Proof.
  intros Hstep. induction l as [|x l IH]; intros st st' HI; simpl.
  - by intros [= <-].
  - destruct (body st x) as [e|st1] eqn:Hx; [done|].
    apply IH. by apply (Hstep st x).
Qed.

Lemma for_each_raises {A St : Type} (I : St -> Prop) (body : St -> A -> result St) l :
  (∀ st x st', I st -> body st x = inr st' -> I st') ->
  Exists (fun x => ∀ st, I st -> ∃ e, body st x = inl e) l ->
  ∀ st, I st -> ∃ e, for_each body st l = inl e.
Proof.
  intros Hstep. induction 1 as [x l Hx|x l _ IH]; intros st HI; simpl.
  - destruct (Hx st HI) as [e ->]. by exists e.
  - destruct (body st x) as [e|st1] eqn:Hbody; [by exists e|].
    apply IH. by apply (Hstep st x).
Qed.

(** ** [read_csv]: rows that are too short, and the copies *)

Lemma row_tuple_short row :
  (List.length row < 3)%nat -> ∃ e, row_tuple row = inl e.
Proof.
  intros Hlen. unfold row_tuple.
  destruct (colon_int row 0) as [e|p]; simpl; [by exists e|].
  unfold colon_int, subscript. rewrite (lookup_ge_None_2 row 2) by lia.
  simpl. by eexists.
Qed.

Lemma read_csv_row_counts st row st' :
  st.1 ≠ 0%nat -> read_csv_row st row = inr st' -> st'.1 ≠ 0%nat.
Proof.
  destruct st as [line_count ct]. unfold read_csv_row. simpl. intros Hne.
  destruct (Nat.eqb_spec line_count 0) as [|_]; [done|].
  simpl. destruct (row_tuple row) as [e|t]; simpl; [done|].
  intros [= <-]. simpl. lia.
Qed.

(** A data row with fewer than three fields makes [read_csv] raise, whatever
    the other rows hold: no pair list is returned. *)
Lemma read_csv_short_row_raises (header : list string) (rows : list (list string)) :
  Exists (fun row => List.length row < 3)%nat rows ->
  ∃ e, read_csv (header :: rows) = inl e.
Proof.
  intros Hshort. unfold read_csv. simpl.
  destruct (for_each_raises (fun st => st.1 ≠ 0%nat) read_csv_row rows
              read_csv_row_counts) with (st := (1%nat, @nil (Z * Z))) as [e He].
  - eapply Exists_impl; [exact Hshort|]. simpl.
    intros row Hrow [line_count ct] Hne. simpl in Hne.
    destruct (row_tuple_short row Hrow) as [e He].
    exists e. unfold read_csv_row.
    destruct (Nat.eqb_spec line_count 0) as [|_]; [done|].
    simpl. by rewrite He.
  - simpl. lia.
  - exists e. by rewrite He.
Qed.

Lemma read_csv_short_row_raises_witness :
  ∃ e, read_csv [["res1"; "type"; "res2"]; ["A:3"; "cWW"; "B:8"]; ["A:4"; "cWW"]]%string
       = inl e.
Proof.
  apply (read_csv_short_row_raises ["res1"; "type"; "res2"]%string
           [["A:3"; "cWW"; "B:8"]; ["A:4"; "cWW"]]%string).
  apply Exists_cons_tl, Exists_cons_hd. simpl. lia.
Defined.

Lemma elem_of_copies (pairs : list (Z * Z)) pq :
  pq ∈ flat_map (fun x => replicate (List.length base_pairs) x) pairs ↔ pq ∈ pairs.
Proof.
  induction pairs as [|x pairs IH]; simpl; [done|].
  rewrite !elem_of_cons, IH. tauto.
Qed.

(** The three copies [read_csv] makes of each row's pair do not reach the
    helices: the pair list it returns gives the same ordered sequence and the
    same helices as the list with one pair per data row. *)
Lemma read_csv_copies_absorbed (header : list string) (rows : list (list string))
    (pairs : list (Z * Z)) :
  Forall2 (fun row pq => after_colon row 0 pq.1 ∧ after_colon row 2 pq.2) rows pairs ->
  ∃ cann_tups,
    read_csv (header :: rows) = inr cann_tups
    ∧ List.length cann_tups = (3 * List.length pairs)%nat
    ∧ ordered_pairs cann_tups = ordered_pairs pairs
    ∧ create_helices cann_tups = create_helices pairs.
Proof.
  intros H.
  exists (flat_map (fun x => replicate (List.length base_pairs) x) pairs).
  split; [|split; [|split]].
  - unfold read_csv. simpl.
    rewrite (read_csv_data_rows rows pairs 0 []); [done|].
    eapply Forall2_impl; [done|]. intros row pq [H0 H2].
    by apply row_tuple_after_colon.
  - clear H. induction pairs as [|x pairs IH]; simpl in *; [done|]. lia.
  - apply ordered_pairs_same_members, elem_of_copies.
  - unfold create_helices.
    by rewrite (ordered_pairs_same_members _ pairs (elem_of_copies pairs)).
Qed.

Lemma read_csv_copies_absorbed_witness :
  ∃ cann_tups,
    read_csv [["res1"; "type"; "res2"]; ["A:3"; "cWW"; "B:8"]; ["A:4"; "cWW"; "B:7"]]%string
    = inr cann_tups
    ∧ List.length cann_tups = (3 * List.length [(3, 8); (4, 7)])%nat
    ∧ ordered_pairs cann_tups = ordered_pairs [(3, 8); (4, 7)]
    ∧ create_helices cann_tups = create_helices [(3, 8); (4, 7)].
Proof.
  apply (read_csv_copies_absorbed ["res1"; "type"; "res2"]%string
           [["A:3"; "cWW"; "B:8"]; ["A:4"; "cWW"; "B:7"]]%string [(3, 8); (4, 7)]).
  repeat constructor; by eexists _, _.
Defined.

(** ** [read_bpseq]: what it never returns, and blank lines *)

Lemma read_bpseq_row_nonzero cannonical_tuples row cannonical_tuples' :
  Forall (fun pq => pq.1 ≠ 0 ∧ pq.2 ≠ 0) cannonical_tuples ->
  read_bpseq_row cannonical_tuples row = inr cannonical_tuples' ->
  Forall (fun pq => pq.1 ≠ 0 ∧ pq.2 ≠ 0) cannonical_tuples'.
Proof.
  intros Hct. unfold read_bpseq_row, append_row.
  destruct (ws_int row 0) as [e|p]; simpl; [done|].
  destruct (Z.eqb_spec p 0) as [|Hp]; simpl; [by intros [= <-]|].
  destruct (ws_int row 2) as [e|q]; simpl; [done|].
  destruct (Z.eqb_spec q 0) as [|Hq]; simpl; [by intros [= <-]|].
  assert (Forall (fun pq => pq.1 ≠ 0 ∧ pq.2 ≠ 0) (cannonical_tuples ++ [(p, q)])) as Hnew.
  { apply Forall_app. split; [done|]. by apply Forall_singleton. }
  destruct (List.length cannonical_tuples <? 1)%nat; [by intros [= <-]|].
  destruct (str_tuple_in row 0 2 cannonical_tuples) as [e|[|]]; simpl; [done| |].
  - by intros [= <-].
  - destruct (str_tuple_in row 2 0 cannonical_tuples) as [e|[|]]; simpl;
      [done| |]; by intros [= <-].
Qed.

(** No pair [read_bpseq] returns has a position 0, whatever the file holds. *)
Lemma read_bpseq_no_zero (bp_file : list string) (pairs : list (Z * Z)) (p q : Z) :
  read_bpseq bp_file = inr pairs -> (p, q) ∈ pairs -> p ≠ 0 ∧ q ≠ 0.
Proof.
  intros Hrun Hpq.
  apply (for_each_invariant (Forall (fun pq => pq.1 ≠ 0 ∧ pq.2 ≠ 0)) read_bpseq_row
           read_bpseq_row_nonzero) in Hrun; [|by constructor].
  rewrite Forall_forall in Hrun. by apply (Hrun (p, q)).
Qed.

Lemma read_bpseq_no_zero_witness :
  read_bpseq ["1 G 5"; "2 A 0"; "0 C 3"]%string = inr [(1, 5)]
  ∧ 1 ≠ 0 ∧ 5 ≠ 0.
Proof.
  split; [reflexivity|].
  apply (read_bpseq_no_zero ["1 G 5"; "2 A 0"; "0 C 3"]%string [(1, 5)] 1 5).
  - reflexivity.
  - apply list_elem_of_here.
Defined.

(** A line that holds nothing but white space makes [read_bpseq] raise,
    wherever it stands in the file. *)
Lemma read_bpseq_blank_line_raises (bp_file : list string) :
  Exists (fun row => split_ws row = []) bp_file ->
  ∃ e, read_bpseq bp_file = inl e.
Proof.
  intros Hblank. unfold read_bpseq.
  apply (for_each_raises (fun _ => True) read_bpseq_row bp_file); [done| |done].
  eapply Exists_impl; [exact Hblank|]. simpl. intros row Hrow ct _.
  exists (IndexError OutOfRange).
  unfold read_bpseq_row, ws_int, subscript. by rewrite Hrow.
Qed.

Lemma read_bpseq_blank_line_raises_witness :
  ∃ e, read_bpseq ["1 G 5"; String newline EmptyString; "5 C 1"]%string = inl e.
Proof.
  apply (read_bpseq_blank_line_raises
           ["1 G 5"; String newline EmptyString; "5 C 1"]%string).
  apply Exists_cons_tl, Exists_cons_hd. reflexivity.
Defined.

(** ** [read_jv]: a matching line without a third field *)

(** A line that matches the header and has no third tab-separated field
    makes [read_jv] raise [IndexError], even when a later line is a proper
    annotation. *)
Lemma read_jv_short_match_raises (before after : list string) (line : string) :
  Forall (fun l => re_match_header l = true ->
                   ∃ p, annotation_payload l = inr p) before ->
  re_match_header line = true ->
  split_on tab line !! 2%nat = None ->
  read_jv (before ++ line :: after) = inl (IndexError OutOfRange).
Proof.
  intros Hbefore Hline Hshort. unfold read_jv. rewrite for_each_app.
  destruct (read_jv_lines_total before None Hbefore) as [anno_resi ->].
  simpl. unfold read_jv_line at 1, annotation_payload, subscript.
  by rewrite Hline, Hshort.
Qed.

Lemma read_jv_short_match_raises_witness :
  read_jv ([annotation_line "(|)|"] ++ annotation_header :: [annotation_line "(|)|"])
  = inl (IndexError OutOfRange).
Proof.
  apply (read_jv_short_match_raises
           [annotation_line "(|)|"] [annotation_line "(|)|"] annotation_header).
  - repeat constructor. intros _. eexists. reflexivity.
  - reflexivity.
  - reflexivity.
Defined.

(** ** The payloads [find_parens] accepts *)

(** [find_parens] returns a pair list exactly on the balanced payloads: those
    in which no prefix holds more closing than opening brackets and the two
    kinds of bracket are equally many. *)
Lemma find_parens_returns_iff_balanced (s : list string) :
  (∃ pairs, find_parens s = inr pairs) ↔ balanced s.
Proof.
  unfold find_parens, enumerate.
  destruct (for_each find_parens_step ([], []) (enumerate_from 0 s))
    as [e|st] eqn:Hscan; simpl.
  - split; [by intros [pairs Hp]|]. intros Hbal. exfalso.
    apply scan_closing_error in Hscan as (n & _ & Hn & Hd).
    destruct (closing_after_balanced s n Hn Hd) as [Hun _].
    destruct (balanced_all_matched s Hbal n) as [Hno _]. by apply Hno.
  - apply scan_final_stack in Hscan
      as [Hcov [(m & Hm & Hdrop & Hd)|(n & rest & Hst & Hn & Hb)]]; simpl in *.
    + assert (m = 0%nat) as -> by lia. rewrite Hdrop. simpl.
      split; [done|]. intros _. by eexists.
    + rewrite Hst. split; [by intros [pairs Hp]|]. intros Hbal. exfalso.
      destruct (opening_before_balanced s n Hcov Hn Hb) as (_ & Hun & _).
      destruct (balanced_all_matched s Hbal n) as [_ Hno]. by apply Hno.
Qed.

(** ** [main]: the residue range *)

Lemma max_from_spec key l : ∀ best,
  max_from key best l ∈ best :: l
  ∧ ∀ x, x ∈ best :: l -> key x ≤ key (max_from key best l).
Proof.
  induction l as [|y l IH]; intros best; simpl.
  - split; [apply list_elem_of_here|]. intros x ->%list_elem_of_singleton. lia.
  - destruct (IH (if key best <? key y then y else best)) as [Hin Hmax].
    split.
    + apply elem_of_cons in Hin as [->|Hin].
      * destruct (key best <? key y);
          [apply list_elem_of_further|]; apply list_elem_of_here.
      * by do 2 apply list_elem_of_further.
    + intros x Hx.
      assert (key best ≤ key (max_from key (if key best <? key y then y else best) l)
              ∧ key y ≤ key (max_from key (if key best <? key y then y else best) l))
        as [Hb Hy].
      { pose proof (Hmax _ (list_elem_of_here _ _)) as H0.
        destruct (Z.ltb_spec (key best) (key y)); lia. }
      apply elem_of_cons in Hx as [->|Hx]; [done|].
      apply elem_of_cons in Hx as [->|Hx]; [done|].
      apply Hmax. by apply list_elem_of_further.
Qed.

Lemma min_from_spec key l : ∀ best,
  min_from key best l ∈ best :: l
  ∧ ∀ x, x ∈ best :: l -> key (min_from key best l) ≤ key x.
Proof.
  induction l as [|y l IH]; intros best; simpl.
  - split; [apply list_elem_of_here|]. intros x ->%list_elem_of_singleton. lia.
  - destruct (IH (if key y <? key best then y else best)) as [Hin Hmin].
    split.
    + apply elem_of_cons in Hin as [->|Hin].
      * destruct (key y <? key best);
          [apply list_elem_of_further|]; apply list_elem_of_here.
      * by do 2 apply list_elem_of_further.
    + intros x Hx.
      assert (key (min_from key (if key y <? key best then y else best) l) ≤ key best
              ∧ key (min_from key (if key y <? key best then y else best) l) ≤ key y)
        as [Hb Hy].
      { pose proof (Hmin _ (list_elem_of_here _ _)) as H0.
        destruct (Z.ltb_spec (key y) (key best)); lia. }
      apply elem_of_cons in Hx as [->|Hx]; [done|].
      apply elem_of_cons in Hx as [->|Hx]; [done|].
      apply Hmin. by apply list_elem_of_further.
Qed.

Lemma maxresi_spec first l :
  ∃ M, maxresi (first :: l) = inr M
       ∧ (∀ p q, (p, q) ∈ first :: l -> p ≤ M ∧ q ≤ M)
       ∧ ∃ pq, pq ∈ first :: l ∧ (M = pq.1 ∨ M = pq.2).
Proof.
  unfold maxresi. simpl.
  destruct (max_from_spec fst l first) as [Ha Hamax].
  destruct (max_from_spec snd l first) as [Hb Hbmax].
  set (a := max_from fst first l) in *. set (b := max_from snd first l) in *.
  eexists. split; [done|]. split.
  - intros p q Hpq. specialize (Hamax _ Hpq). specialize (Hbmax _ Hpq).
    simpl in *. lia.
  - destruct (Z.max_spec (Z.max a.1 a.2) (Z.max b.1 b.2)) as [[_ ->]|[_ ->]].
    + exists b. split; [done|]. lia.
    + exists a. split; [done|]. lia.
Qed.

Lemma minresi_spec first l :
  ∃ m, minresi (first :: l) = inr m
       ∧ (∀ p q, (p, q) ∈ first :: l -> m ≤ p ∧ m ≤ q)
       ∧ ∃ pq, pq ∈ first :: l ∧ (m = pq.1 ∨ m = pq.2).
Proof.
  unfold minresi. simpl.
  destruct (min_from_spec fst l first) as [Ha Hamin].
  destruct (min_from_spec snd l first) as [Hb Hbmin].
  set (a := min_from fst first l) in *. set (b := min_from snd first l) in *.
  eexists. split; [done|]. split.
  - intros p q Hpq. specialize (Hamin _ Hpq). specialize (Hbmin _ Hpq).
    simpl in *. lia.
  - destruct (Z.min_spec (Z.min a.1 a.2) (Z.min b.1 b.2)) as [[_ ->]|[_ ->]].
    + exists a. split; [done|]. lia.
    + exists b. split; [done|]. lia.
Qed.

(** On the empty pair list [main] raises the [ValueError] of [max], after
    [create_helices] has returned; on any other pair list the part of [main]
    before the plotting raises nothing, and the two bounds it computes are
    the largest and the smallest position that occurs in a pair. *)
Lemma main_data_range (cann_tups : list (Z * Z)) :
  (cann_tups = [] ∧ main_data cann_tups = inl (EmptySequence "max"))
  ∨ ∃ helix_basepairs helix_num maxresi minresi,
      main_data cann_tups = inr (helix_basepairs, helix_num, maxresi, minresi)
      ∧ create_helices cann_tups = inr (helix_basepairs, helix_num)
      ∧ (∀ p q, (p, q) ∈ cann_tups ->
                minresi ≤ p ≤ maxresi ∧ minresi ≤ q ≤ maxresi)
      ∧ (∃ pq, pq ∈ cann_tups ∧ (maxresi = pq.1 ∨ maxresi = pq.2))
      ∧ (∃ pq, pq ∈ cann_tups ∧ (minresi = pq.1 ∨ minresi = pq.2)).
Proof.
  destruct cann_tups as [|first l]; [by left|]. right.
  destruct (create_helices_loop (ordered_pairs (first :: l)))
    as (hb & hn & Hrun & _); [by rewrite ordered_pairs_nil_iff|].
  destruct (maxresi_spec first l) as (M & HM & Hle & Hmax).
  destruct (minresi_spec first l) as (m & Hm & Hge & Hmin).
  assert (create_helices (first :: l) = inr (hb, hn)) as Hhelices by exact Hrun.
  exists hb, hn, M, m. unfold main_data. rewrite HM, Hm, Hhelices.
  split; [done|]. split; [done|]. split; [|done].
  intros p q Hpq. specialize (Hle p q Hpq). specialize (Hge p q Hpq). lia.
Qed.

(** ** The first helix *)

Lemma create_helices_later_helix0_kept ob : ∀ n k hb hn hb' hn',
  (1 ≤ hn)%nat ->
  for_each (create_helices_step ob) (hb, hn) (seq k n) = inr (hb', hn') ->
  hb' !! 0%nat = hb !! 0%nat.
Proof.
  induction n as [|n IH]; intros k hb hn hb' hn' Hhn; simpl; [by intros [= <- <-]|].
  unfold create_helices_step at 1, subscript, dict_append.
  destruct (0 <? k)%nat.
  - destruct (ob !! k) as [cur|]; simpl; [|done].
    destruct (ob !! (k - 1)%nat) as [prev|]; simpl; [|done].
    destruct ((cur.1 - 1 =? prev.1) || (cur.2 - 1 =? prev.2)).
    + destruct (hb !! hn) as [l|]; simpl; [|done].
      intros Hrun. apply IH in Hrun; [|done].
      by rewrite Hrun, lookup_insert_ne by lia.
    + simpl. intros Hrun. apply IH in Hrun; [|lia].
      by rewrite Hrun, lookup_insert_ne by lia.
  - destruct (ob !! k) as [cur|]; simpl; [|done].
    rewrite lookup_insert_eq. simpl.
    intros Hrun. apply IH in Hrun; [|done].
    by rewrite Hrun, !lookup_insert_ne by lia.
Qed.

Lemma create_helices_later_helix0 ob : ∀ n k hb prev h0 hb' hn',
  (k + n)%nat = List.length ob -> ob !! (k - 1)%nat = Some prev -> (1 ≤ k)%nat ->
  hb !! 0%nat = Some h0 ->
  for_each (create_helices_step ob) (hb, 0%nat) (seq k n) = inr (hb', hn') ->
  hb' !! 0%nat = Some (h0 ++ run_after prev (drop k ob)).
Proof.
  induction n as [|n IH]; intros k hb prev h0 hb' hn' Hlen Hprev Hk Hh0; simpl.
  { intros [= <- <-]. rewrite drop_ge by lia. simpl. by rewrite app_nil_r. }
  destruct (lookup_lt_is_Some_2 ob k) as [cur Hcur]; [lia|].
  rewrite (drop_S _ _ _ Hcur). simpl.
  unfold create_helices_step at 1, subscript, dict_append.
  destruct (Nat.ltb_spec 0 k) as [_|]; [|lia].
  rewrite Hcur, Hprev. simpl. unfold strand_adjacent.
  destruct ((cur.1 - 1 =? prev.1) || (cur.2 - 1 =? prev.2)).
  - rewrite Hh0. simpl. intros Hrun.
    apply (IH (S k) _ cur (h0 ++ [cur])) in Hrun;
      [|lia|by rewrite Nat.sub_1_r|lia|by rewrite lookup_insert_eq].
    by rewrite Hrun, <- app_assoc.
  - simpl. intros Hrun. apply create_helices_later_helix0_kept in Hrun; [|lia].
    by rewrite Hrun, lookup_insert_ne, app_nil_r by lia.
Qed.

(** For a non-empty input helix 0 is the first pair of the ordered sequence
    followed by the pairs of the run it starts: those up to the first pair
    that is not strand-adjacent to its predecessor. *)
Lemma create_helices_first_helix (cann_tups : list (Z * Z)) :
  cann_tups ≠ [] ->
  ∃ helix_basepairs helix_num,
    create_helices cann_tups = inr (helix_basepairs, helix_num)
    ∧ helix_basepairs !! 0%nat = Some (first_run (ordered_pairs cann_tups)).
Proof.
  intros Hne. unfold create_helices.
  destruct (ordered_pairs cann_tups) as [|first l] eqn:Hob.
  { exfalso. apply Hne. by apply ordered_pairs_nil_iff. }
  destruct (create_helices_loop (first :: l)) as (hb & hn & Hrun & _); [done|].
  exists hb, hn. split; [exact Hrun|].
  simpl in Hrun.
  apply (create_helices_later_helix0 (first :: l) _ 1 _ first [first]) in Hrun;
    [|done|done|lia|by rewrite lookup_insert_eq].
  by rewrite Hrun.
Qed.

Lemma create_helices_first_helix_witness :
  ∃ helix_basepairs helix_num,
    create_helices [(10, 11); (3, 18); (1, 20); (2, 19)]
    = inr (helix_basepairs, helix_num)
    ∧ helix_basepairs !! 0%nat
      = Some (first_run (ordered_pairs [(10, 11); (3, 18); (1, 20); (2, 19)])).
Proof.
  apply (create_helices_first_helix [(10, 11); (3, 18); (1, 20); (2, 19)]).
  discriminate.
Defined.
